(** * Logarithm maps and joint Jacobians of pinocchio

    A shallow embedding of [src/spatial/log.hxx] (the generic kernels
    [log3_impl], [Jlog3_impl], [log6_impl], [Jlog6_impl]) and of the joint
    Jacobian extraction declared in [include/pinocchio/algorithm/jacobian.hpp].

    The kernels are C++ templates over a scalar type.  They are embedded once,
    over a type class of scalar operations, and then read at two scalar types:
    the real numbers (the arithmetic the formulas are written for) and the
    real numbers extended with a not-a-number value (to follow how an
    undefined operation propagates, or does not, to the result). *)

From Stdlib Require Import Reals Lra Lia ZArith QArith Qreals RNsatz.
From stdpp Require Import base list.

(** ** Scalars *)

(** The operations the kernels apply to their [Scalar] template parameter:
    construction from a literal, the four operations, the elementary functions
    of [pinocchio::math] and the comparisons. *)
Class Scalar (S : Type) : Type := {
  ofZ : Z -> S;                 (* Scalar(3), Scalar(-1), ... *)
  ofQ : Q -> S;                 (* Scalar(0.5), 1e-2 *)
  s_add : S -> S -> S;
  s_sub : S -> S -> S;
  s_mul : S -> S -> S;
  s_div : S -> S -> S;
  s_opp : S -> S;
  math_sqrt : S -> S;
  math_sin : S -> S;
  math_cos : S -> S;
  math_acos : S -> S;
  PI_ : S;                      (* PI<Scalar>() *)
  s_ltb : S -> S -> bool;       (* a < b *)
  s_leb : S -> S -> bool;       (* a <= b *)
  s_eqb : S -> S -> bool        (* a == b *)
}.

(** [TaylorSeriesExpansion<Scalar>::precision<3>()]: the threshold under which
    the kernels switch to a Taylor expansion.  The trait lives in
    [math/taylor-expansion.hpp]; its value is a per-scalar-type constant and is
    kept as a parameter here. *)
Class TaylorSeriesExpansion (S : Type) : Type := {
  precision3 : S
}.

Declare Scope scalar_scope.
Delimit Scope scalar_scope with S.
Infix "+" := s_add : scalar_scope.
Infix "-" := s_sub : scalar_scope.
Infix "*" := s_mul : scalar_scope.
Infix "/" := s_div : scalar_scope.
Notation "- x" := (s_opp x) : scalar_scope.

(** The comparison selector of [math/comparison-operators.hpp]. *)
Inductive ComparisonOperators : Set := LT | LE | EQ | GE | GT.

Section Kernels.
Context {S : Type} {scalar : Scalar S} {taylor : TaylorSeriesExpansion S}.
Local Open Scope scalar_scope.

(** Modelled from the spec: [internal::if_then_else] is defined in
    [math/comparison-operators.hpp], which is not among the sources.  It is
    the conditional-select primitive: both value arguments are evaluated by
    the caller and one of them is returned according to the comparison. *)
Definition if_then_else (op : ComparisonOperators) (lhs rhs : S)
    (then_value else_value : S) : S :=
  match op with
  | LT => if s_ltb lhs rhs then then_value else else_value
  | LE => if s_leb lhs rhs then then_value else else_value
  | EQ => if s_eqb lhs rhs then then_value else else_value
  | GE => if s_leb rhs lhs then then_value else else_value
  | GT => if s_ltb rhs lhs then then_value else else_value
  end.

(** [math::max] and [math::min] forward to [std::max] and [std::min]. *)
Definition math_max (a b : S) : S := if s_ltb a b then b else a.
Definition math_min (a b : S) : S := if s_ltb b a then b else a.

(** *** Vectors and matrices of fixed size *)

Record Vector3 : Type := mkVector3 { v0 : S; v1 : S; v2 : S }.

(** [mIJ] is the coefficient [M(I,J)], row [I] and column [J]. *)
Record Matrix3 : Type := mkMatrix3 {
  m00 : S; m01 : S; m02 : S;
  m10 : S; m11 : S; m12 : S;
  m20 : S; m21 : S; m22 : S
}.

Definition trace (R : Matrix3) : S := m00 R + m11 R + m22 R.

Definition vscale (a : S) (v : Vector3) : Vector3 :=
  mkVector3 (a * v0 v) (a * v1 v) (a * v2 v).
Definition vadd (a b : Vector3) : Vector3 :=
  mkVector3 (v0 a + v0 b) (v1 a + v1 b) (v2 a + v2 b).
Definition vsub (a b : Vector3) : Vector3 :=
  mkVector3 (v0 a - v0 b) (v1 a - v1 b) (v2 a - v2 b).
Definition dot (a b : Vector3) : S := v0 a * v0 b + v1 a * v1 b + v2 a * v2 b.
Definition cross (a b : Vector3) : Vector3 :=
  mkVector3 (v1 a * v2 b - v2 a * v1 b)
            (v2 a * v0 b - v0 a * v2 b)
            (v0 a * v1 b - v1 a * v0 b).

(** [a * b.transpose()] for two column vectors. *)
Definition outer (a b : Vector3) : Matrix3 :=
  mkMatrix3 (v0 a * v0 b) (v0 a * v1 b) (v0 a * v2 b)
            (v1 a * v0 b) (v1 a * v1 b) (v1 a * v2 b)
            (v2 a * v0 b) (v2 a * v1 b) (v2 a * v2 b).

Definition madd (A B : Matrix3) : Matrix3 :=
  mkMatrix3 (m00 A + m00 B) (m01 A + m01 B) (m02 A + m02 B)
            (m10 A + m10 B) (m11 A + m11 B) (m12 A + m12 B)
            (m20 A + m20 B) (m21 A + m21 B) (m22 A + m22 B).

Definition mmul (A B : Matrix3) : Matrix3 :=
  mkMatrix3
    (m00 A * m00 B + m01 A * m10 B + m02 A * m20 B)
    (m00 A * m01 B + m01 A * m11 B + m02 A * m21 B)
    (m00 A * m02 B + m01 A * m12 B + m02 A * m22 B)
    (m10 A * m00 B + m11 A * m10 B + m12 A * m20 B)
    (m10 A * m01 B + m11 A * m11 B + m12 A * m21 B)
    (m10 A * m02 B + m11 A * m12 B + m12 A * m22 B)
    (m20 A * m00 B + m21 A * m10 B + m22 A * m20 B)
    (m20 A * m01 B + m21 A * m11 B + m22 A * m21 B)
    (m20 A * m02 B + m21 A * m12 B + m22 A * m22 B).

Definition mzero : Matrix3 :=
  mkMatrix3 (ofZ 0) (ofZ 0) (ofZ 0) (ofZ 0) (ofZ 0) (ofZ 0) (ofZ 0) (ofZ 0) (ofZ 0).

(** [M.diagonal().array() += d]. *)
Definition add_to_diagonal (d : S) (M : Matrix3) : Matrix3 :=
  mkMatrix3 (m00 M + d) (m01 M) (m02 M)
            (m10 M) (m11 M + d) (m12 M)
            (m20 M) (m21 M) (m22 M + d).

(** Modelled from the spec: [addSkew(v, M)] is defined in
    [spatial/skew.hpp], which is not among the sources.  It adds to [M], in
    place, the skew-symmetric matrix of [v] (the matrix of [x -> v x x]),
    touching the six off-diagonal coefficients only. *)
Definition addSkew (v : Vector3) (M : Matrix3) : Matrix3 :=
  mkMatrix3 (m00 M)        (m01 M - v2 v) (m02 M + v1 v)
            (m10 M + v2 v) (m11 M)        (m12 M - v0 v)
            (m20 M - v1 v) (m21 M + v0 v) (m22 M).

(** *** [log3_impl::run] *)

Definition PI_value : S := PI_.

(** The angle, as assigned to [theta] from the trace. *)
Definition log3_theta (R : Matrix3) : S :=
  let tr := trace R in
  if_then_else GE tr (ofZ 3)
    (ofZ 0)
    (if_then_else LE tr (ofZ (-1))
       PI_value
       (math_acos ((tr - ofZ 1) / ofZ 2))).

(** The trace after [tr = math::max(math::min(tr,Scalar(3)),Scalar(-1))]. *)
Definition log3_clamped_trace (R : Matrix3) : S :=
  math_max (math_min (trace R) (ofZ 3)) (ofZ (-1)).

(** The assertion [theta == theta], which fails on a NaN only. *)
Definition log3_assertion (R : Matrix3) : bool :=
  let theta := log3_theta R in s_eqb theta theta.

(** [log3_impl::run(R, theta, res)]: the pair of its two outputs. *)
Definition log3_impl_run (R : Matrix3) : S * Vector3 :=
  let tr := trace R in
  let theta := log3_theta R in
  let tr := math_max (math_min tr (ofZ 3)) (ofZ (-1)) in
  let PI_value_lower := PI_value - ofQ (1 # 100) in
  let t := if_then_else GT theta precision3
             (theta / math_sin theta)
             (ofZ 1) / ofZ 2 in
  let cphi := - (tr - ofZ 1) / ofZ 2 in
  let beta := theta * theta / (ofZ 1 + cphi) in
  let tmp := mkVector3 ((m00 R + cphi) * beta)
                       ((m11 R + cphi) * beta)
                       ((m22 R + cphi) * beta) in
  let res0 :=
    if_then_else GE theta PI_value_lower
      (if_then_else GT (m21 R) (m12 R) (ofZ 1) (ofZ (-1))
       * if_then_else GT (v0 tmp) (ofZ 0) (math_sqrt (v0 tmp)) (ofZ 0))
      (t * (m21 R - m12 R)) in
  let res1 :=
    if_then_else GE theta PI_value_lower
      (if_then_else GT (m02 R) (m20 R) (ofZ 1) (ofZ (-1))
       * if_then_else GT (v1 tmp) (ofZ 0) (math_sqrt (v1 tmp)) (ofZ 0))
      (t * (m02 R - m20 R)) in
  let res2 :=
    if_then_else GE theta PI_value_lower
      (if_then_else GT (m10 R) (m01 R) (ofZ 1) (ofZ (-1))
       * if_then_else GT (v2 tmp) (ofZ 0) (math_sqrt (v2 tmp)) (ofZ 0))
      (t * (m10 R - m01 R)) in
  (theta, mkVector3 res0 res1 res2).

(** [log3(R, theta)] of [spatial/explog.hpp] returns [res] and sets [theta]. *)
Definition log3 (R : Matrix3) : S * Vector3 := log3_impl_run R.

(** *** [Jlog3_impl::run] *)

(** [Jlog3_impl::run(theta, log, Jlog)]: the matrix left in [Jlog], which is
    assigned first and then updated in place twice. *)
Definition Jlog3_impl_run (theta : S) (log : Vector3) : Matrix3 :=
  let st := math_sin theta in
  let ct := math_cos theta in
  let st_1mct := st / (ofZ 1 - ct) in
  let alpha := if_then_else LT theta precision3
                 (ofZ 1 / ofZ 12 + theta * theta / ofZ 720)
                 (ofZ 1 / (theta * theta) - st_1mct / (ofZ 2 * theta)) in
  let diag_value := if_then_else LT theta precision3
                      (ofQ (1 # 2) * (ofZ 2 - theta * theta / ofZ 6))
                      (ofQ (1 # 2) * (theta * st_1mct)) in
  let Jlog_ := outer (vscale alpha log) log in
  let Jlog_ := add_to_diagonal diag_value Jlog_ in
  addSkew (vscale (ofQ (1 # 2)) log) Jlog_.

(** [Jlog3(theta, log, Jlog)] of [spatial/explog.hpp]. *)
Definition Jlog3 (theta : S) (log : Vector3) : Matrix3 :=
  Jlog3_impl_run theta log.

(** *** Rigid transforms and spatial motions *)

Record SE3 : Type := mkSE3 { rotation : Matrix3; translation : Vector3 }.

(** Linear part first, angular part second. *)
Record Motion : Type := mkMotion { linear : Vector3; angular : Vector3 }.

(** *** [log6_impl::run] *)

(** The two coefficients of the linear part, from the angle. *)
Definition log6_alpha (theta : S) : S :=
  let t2 := theta * theta in
  let st := math_sin theta in
  let ct := math_cos theta in
  if_then_else LT theta precision3
    (ofZ 1 - t2 / ofZ 12 - t2 * t2 / ofZ 720)
    (theta * st / (ofZ 2 * (ofZ 1 - ct))).

Definition log6_beta (theta : S) : S :=
  let t2 := theta * theta in
  let st := math_sin theta in
  let ct := math_cos theta in
  if_then_else LT theta precision3
    (ofZ 1 / ofZ 12 + t2 / ofZ 720)
    (ofZ 1 / t2 - st / (ofZ 2 * theta * (ofZ 1 - ct))).

Definition log6_impl_run (M : SE3) : Motion :=
  let R := rotation M in
  let p := translation M in
  let '(theta, w) := log3 R in
  let alpha := log6_alpha theta in
  let beta := log6_beta theta in
  mkMotion
    (vadd (vsub (vscale alpha p) (vscale (ofQ (1 # 2)) (cross w p)))
          (vscale (beta * dot w p) w))
    w.

Definition log6 (M : SE3) : Motion := log6_impl_run M.

(** *** [Jlog6_impl::run] *)

(** The 6x6 output [value], as the four 3x3 blocks the kernel takes views
    of: [A] top left, [B] top right, [C] bottom left, [D] bottom right. *)
Record Matrix6 : Type := mkMatrix6 {
  topLeftCorner : Matrix3;
  topRightCorner : Matrix3;
  bottomLeftCorner : Matrix3;
  bottomRightCorner : Matrix3
}.

(** Writing through one of the four block views changes that block of
    [value] and no other. *)
Definition set_A (X : Matrix3) (value : Matrix6) : Matrix6 :=
  mkMatrix6 X (topRightCorner value) (bottomLeftCorner value) (bottomRightCorner value).
Definition set_B (X : Matrix3) (value : Matrix6) : Matrix6 :=
  mkMatrix6 (topLeftCorner value) X (bottomLeftCorner value) (bottomRightCorner value).
Definition set_C (X : Matrix3) (value : Matrix6) : Matrix6 :=
  mkMatrix6 (topLeftCorner value) (topRightCorner value) X (bottomRightCorner value).
Definition set_D (X : Matrix3) (value : Matrix6) : Matrix6 :=
  mkMatrix6 (topLeftCorner value) (topRightCorner value) (bottomLeftCorner value) X.

Definition Jlog6_beta (t : S) : S :=
  let t2 := t * t in
  let tinv := ofZ 1 / t in
  let t2inv := tinv * tinv in
  let st := math_sin t in
  let ct := math_cos t in
  let inv_2_2ct := ofZ 1 / (ofZ 2 * (ofZ 1 - ct)) in
  if_then_else LT t precision3
    (ofZ 1 / ofZ 12 + t2 / ofZ 720)
    (t2inv - st * tinv * inv_2_2ct).

Definition Jlog6_beta_dot_over_theta (t : S) : S :=
  let tinv := ofZ 1 / t in
  let t2inv := tinv * tinv in
  let st := math_sin t in
  let ct := math_cos t in
  let inv_2_2ct := ofZ 1 / (ofZ 2 * (ofZ 1 - ct)) in
  if_then_else LT t precision3
    (ofZ 1 / ofZ 360)
    (- ofZ 2 * t2inv * t2inv + (ofZ 1 + st * tinv) * t2inv * inv_2_2ct).

(** The content of block [C] just before [B.noalias() = C * A]. *)
Definition Jlog6_C_intermediate (M : SE3) : Matrix3 :=
  let p := translation M in
  let '(t, w) := log3 (rotation M) in
  let t2 := t * t in
  let beta := Jlog6_beta t in
  let beta_dot_over_theta := Jlog6_beta_dot_over_theta t in
  let wTp := dot w p in
  let v3_tmp := vsub (vscale (beta_dot_over_theta * wTp) w)
                     (vscale (t2 * beta_dot_over_theta + ofZ 2 * beta) p) in
  addSkew (vscale (ofQ (1 # 2)) p)
    (add_to_diagonal (wTp * beta)
       (madd (outer v3_tmp w) (outer (vscale beta w) p))).

(** [Jlog6_impl::run(M, Jlog)]: the statements of the kernel, each acting
    on the matrix [value] the caller supplied. *)
Definition Jlog6_impl_run (M : SE3) (value : Matrix6) : Matrix6 :=
  let R := rotation M in
  let p := translation M in
  let '(t, w) := log3 R in
  let value := set_A (Jlog3 t w) value in                 (* Jlog3(t, w, A) *)
  let value := set_D (topLeftCorner value) value in       (* D = A *)
  let t2 := t * t in
  let beta := Jlog6_beta t in
  let beta_dot_over_theta := Jlog6_beta_dot_over_theta t in
  let wTp := dot w p in
  let v3_tmp := vsub (vscale (beta_dot_over_theta * wTp) w)
                     (vscale (t2 * beta_dot_over_theta + ofZ 2 * beta) p) in
  let value := set_C (outer v3_tmp w) value in            (* C = v3_tmp * w^T *)
  let value := set_C (madd (bottomLeftCorner value)
                           (outer (vscale beta w) p)) value in
  let value := set_C (add_to_diagonal (wTp * beta)
                        (bottomLeftCorner value)) value in
  let value := set_C (addSkew (vscale (ofQ (1 # 2)) p)
                        (bottomLeftCorner value)) value in
  let value := set_B (mmul (bottomLeftCorner value)
                           (topLeftCorner value)) value in (* B = C * A *)
  set_C mzero value.                                      (* C.setZero() *)

End Kernels.

Arguments Vector3 S : clear implicits.
Arguments Matrix3 S : clear implicits.
Arguments SE3 S : clear implicits.
Arguments Motion S : clear implicits.
Arguments Matrix6 S : clear implicits.

(** ** The real numbers as a scalar type *)

Open Scope R_scope.

Definition Rltb (x y : R) : bool := if Rlt_dec x y then true else false.
Definition Rleb (x y : R) : bool := if Rle_dec x y then true else false.
Definition Reqb (x y : R) : bool := if Req_dec_T x y then true else false.

(** Division is the total division of [R], for which [x / 0 = 0], where the
    floating-point division gives an infinity or NaN; the instance
    [xreal_Scalar] below keeps track of the divisions by zero. *)
#[export] Instance R_Scalar : Scalar R := {|
  ofZ := IZR;
  ofQ := Q2R;
  s_add := Rplus;
  s_sub := Rminus;
  s_mul := Rmult;
  s_div := Rdiv;
  s_opp := Ropp;
  math_sqrt := sqrt;
  math_sin := sin;
  math_cos := cos;
  math_acos := acos;
  PI_ := PI;
  s_ltb := Rltb;
  s_leb := Rleb;
  s_eqb := Reqb
|}.

(** ** Real numbers with a not-a-number value *)

(** [XNaN] is the outcome of an operation applied outside its domain (a
    division by zero, the square root of a negative number, the arc cosine of
    a number outside [-1, 1]).  As an IEEE NaN does, it propagates through
    every operation and makes every comparison false, [x == x] included.
    Rounding is not modelled and the IEEE infinities are not told apart from
    [XNaN]. *)
Inductive xreal : Type :=
| XNaN : xreal
| XFin : R -> xreal.

Definition xlift1 (f : R -> R) (a : xreal) : xreal :=
  match a with
  | XFin x => XFin (f x)
  | XNaN => XNaN
  end.

Definition xlift2 (f : R -> R -> R) (a b : xreal) : xreal :=
  match a, b with
  | XFin x, XFin y => XFin (f x y)
  | _, _ => XNaN
  end.

Definition xdiv (a b : xreal) : xreal :=
  match a, b with
  | XFin x, XFin y => if Req_dec_T y 0 then XNaN else XFin (x / y)
  | _, _ => XNaN
  end.

Definition xsqrt (a : xreal) : xreal :=
  match a with
  | XFin x => if Rlt_dec x 0 then XNaN else XFin (sqrt x)
  | XNaN => XNaN
  end.

Definition xacos (a : xreal) : xreal :=
  match a with
  | XFin x => if Rle_dec (-1) x
              then if Rle_dec x 1 then XFin (acos x) else XNaN
              else XNaN
  | XNaN => XNaN
  end.

Definition xcmp (c : R -> R -> bool) (a b : xreal) : bool :=
  match a, b with
  | XFin x, XFin y => c x y
  | _, _ => false
  end.

Definition is_nan (a : xreal) : bool :=
  match a with
  | XNaN => true
  | XFin _ => false
  end.

#[export] Instance xreal_Scalar : Scalar xreal := {|
  ofZ := fun z => XFin (IZR z);
  ofQ := fun q => XFin (Q2R q);
  s_add := xlift2 Rplus;
  s_sub := xlift2 Rminus;
  s_mul := xlift2 Rmult;
  s_div := xdiv;
  s_opp := xlift1 Ropp;
  math_sqrt := xsqrt;
  math_sin := xlift1 sin;
  math_cos := xlift1 cos;
  math_acos := xacos;
  PI_ := XFin PI;
  s_ltb := xcmp Rltb;
  s_leb := xcmp Rleb;
  s_eqb := xcmp Reqb
|}.

(** Injection of real vectors and matrices. *)
Definition XVec (v : Vector3 R) : Vector3 xreal :=
  mkVector3 (XFin (v0 v)) (XFin (v1 v)) (XFin (v2 v)).

Definition XMat (M : Matrix3 R) : Matrix3 xreal :=
  mkMatrix3 (XFin (m00 M)) (XFin (m01 M)) (XFin (m02 M))
            (XFin (m10 M)) (XFin (m11 M)) (XFin (m12 M))
            (XFin (m20 M)) (XFin (m21 M)) (XFin (m22 M)).

Definition vec_has_nan (v : Vector3 xreal) : bool :=
  is_nan (v0 v) || is_nan (v1 v) || is_nan (v2 v).

(** ** Inputs the kernels are run on *)

(** The threshold [p] as the value of [precision<3>()], for each of the two
    scalar types. *)
Definition precision_R (p : R) : TaylorSeriesExpansion R :=
  {| precision3 := p |}.
Definition precision_X (p : R) : TaylorSeriesExpansion xreal :=
  {| precision3 := XFin p |}.

(** A sample threshold, [2^-13]: the fourth root of the machine epsilon
    [2^-52] of [double].  It only serves to run the kernels on concrete
    inputs; the statements below hold for every threshold. *)
Definition precision3_double : TaylorSeriesExpansion R := precision_R (/ 8192).

Definition Identity3 : Matrix3 R := mkMatrix3 1 0 0  0 1 0  0 0 1.

(** The rotations by the angle [pi] about the three coordinate axes. *)
Definition Rx_pi : Matrix3 R := mkMatrix3 1 0 0  0 (-1) 0  0 0 (-1).
Definition Ry_pi : Matrix3 R := mkMatrix3 (-1) 0 0  0 1 0  0 0 (-1).
Definition Rz_pi : Matrix3 R := mkMatrix3 (-1) 0 0  0 (-1) 0  0 0 1.

(** The rotation by the angle [pi/2] about the z axis. *)
Definition Rz_half_pi : Matrix3 R := mkMatrix3 0 (-1) 0  1 0 0  0 0 1.

Definition UnitX : Vector3 R := mkVector3 1 0 0.
Definition UnitY : Vector3 R := mkVector3 0 1 0.
Definition UnitZ : Vector3 R := mkVector3 0 0 1.

(** ** Notions the statements use *)

Definition mtranspose {S : Type} (M : Matrix3 S) : Matrix3 S :=
  mkMatrix3 (m00 M) (m10 M) (m20 M)
            (m01 M) (m11 M) (m21 M)
            (m02 M) (m12 M) (m22 M).

Definition mopp (M : Matrix3 R) : Matrix3 R :=
  mkMatrix3 (- m00 M) (- m01 M) (- m02 M)
            (- m10 M) (- m11 M) (- m12 M)
            (- m20 M) (- m21 M) (- m22 M).

(** The vector [v] of a skew-symmetric matrix, read where [addSkew] writes it. *)
Definition vee (M : Matrix3 R) : Vector3 R := mkVector3 (m21 M) (m02 M) (m10 M).

(** [(R - R^T)_vee]. *)
Definition antisymmetric_vee (M : Matrix3 R) : Vector3 R :=
  vee (madd M (mopp (mtranspose M))).

Definition skew (v : Vector3 R) : Matrix3 R :=
  mkMatrix3 0 (- v2 v) (v1 v)
            (v2 v) 0 (- v0 v)
            (- v1 v) (v0 v) 0.

Definition mdiag (d : R) : Matrix3 R := mkMatrix3 d 0 0  0 d 0  0 0 d.

Definition mscale (a : R) (M : Matrix3 R) : Matrix3 R :=
  mkMatrix3 (a * m00 M) (a * m01 M) (a * m02 M)
            (a * m10 M) (a * m11 M) (a * m12 M)
            (a * m20 M) (a * m21 M) (a * m22 M).

Definition det3 (M : Matrix3 R) : R :=
  m00 M * (m11 M * m22 M - m12 M * m21 M)
  - m01 M * (m10 M * m22 M - m12 M * m20 M)
  + m02 M * (m10 M * m21 M - m11 M * m20 M).

(** A rotation: an orthonormal matrix of determinant one. *)
Definition is_rotation (M : Matrix3 R) : Prop :=
  mmul (mtranspose M) M = Identity3 /\ det3 M = 1.

(** The sign factor of the branch around [pi]: a strict comparison. *)
Definition strict_sign (a b : R) : R := if Rlt_dec b a then 1 else -1.

(** [tmp[i]] of [log3_impl::run], as a function of the diagonal coefficient
    [d = R(i,i)]: [(d + cphi) * beta] with [beta = theta^2 / (1 + cphi)] and
    [cphi] taken from the clamped trace. *)
Definition log3_tmp (M : Matrix3 R) (d : R) : R :=
  let cphi := - (log3_clamped_trace M - 1) / 2 in
  (d + cphi) * (log3_theta M * log3_theta M / (1 + cphi)).

(** ** Kinematic model and joint Jacobians

    [include/pinocchio/algorithm/jacobian.hpp] declares the Jacobian
    algorithms and defines one of them, the overload of [getJointJacobian]
    that returns its result.  The containers ([Model], [Data]), the spatial
    algebra ([SE3] products and actions), the joint kernels and the bodies of
    the other algorithms ([algorithm/jacobian.hxx]) are not among the sources;
    they are modelled from the specification. *)

Definition Vector3_Zero : Vector3 R := mkVector3 0 0 0.
Definition Motion_Zero : Motion R := mkMotion Vector3_Zero Vector3_Zero.
Definition SE3_Identity : SE3 R := mkSE3 Identity3 Vector3_Zero.

Definition mvmul (M : Matrix3 R) (v : Vector3 R) : Vector3 R :=
  mkVector3 (m00 M * v0 v + m01 M * v1 v + m02 M * v2 v)
            (m10 M * v0 v + m11 M * v1 v + m12 M * v2 v)
            (m20 M * v0 v + m21 M * v1 v + m22 M * v2 v).

(** Modelled from the spec: the product of two rigid transforms, a rotation
    with a translation each ([spatial/se3.hpp] is not among the sources). *)
Definition SE3_mul (a b : SE3 R) : SE3 R :=
  mkSE3 (mmul (rotation a) (rotation b))
        (vadd (translation a) (mvmul (rotation a) (translation b))).

(** Modelled from the spec: the action of a placement on a spatial motion,
    which re-expresses it in the outer frame, and the inverse action. *)
Definition SE3_act (m : SE3 R) (v : Motion R) : Motion R :=
  let w := mvmul (rotation m) (angular v) in
  mkMotion (vadd (mvmul (rotation m) (linear v)) (cross (translation m) w)) w.

Definition SE3_actInv (m : SE3 R) (v : Motion R) : Motion R :=
  let Rt := mtranspose (rotation m) in
  mkMotion (mvmul Rt (vsub (linear v) (cross (translation m) (angular v))))
           (mvmul Rt (angular v)).


(** [enum ReferenceFrame] of [multibody/fwd.hpp]. *)
Inductive ReferenceFrame : Set := WORLD | LOCAL | LOCAL_WORLD_ALIGNED.

(** Modelled from the spec: a joint is seen through its kernel, which gives,
    from the joint's slice of the configuration, the placement of the joint
    frame and the motion subspace, one spatial motion per degree of freedom
    expressed in the joint's local frame. *)
Record JointModel : Type := mkJointModel {
  joint_nq : nat;
  joint_nv : nat;
  joint_transform : list R -> SE3 R;
  joint_subspace : list R -> list (Motion R)
}.

(** The rotation by the angle [a] about the x axis. *)
Definition AngleAxis_UnitX (a : R) : Matrix3 R :=
  mkMatrix3 1 0 0
            0 (cos a) (- sin a)
            0 (sin a) (cos a).

Definition config_head (q : list R) : R := default 0 (q !! 0%nat).

(** Modelled from the spec: the three joint kinds of the test [vsPXRX], all
    about the x axis.  The prismatic joint translates by [q], the revolute
    joint rotates by [q], the helical joint of pitch [h] rotates by [q] and
    translates by [q * h] (the placement the test [spatial] checks for
    [TransformHelicalTpl]). *)
Definition JointModelPX : JointModel :=
  mkJointModel 1 1
    (fun q => mkSE3 Identity3 (mkVector3 (config_head q) 0 0))
    (fun _ => [mkMotion UnitX Vector3_Zero]).

Definition JointModelRX : JointModel :=
  mkJointModel 1 1
    (fun q => mkSE3 (AngleAxis_UnitX (config_head q)) Vector3_Zero)
    (fun _ => [mkMotion Vector3_Zero UnitX]).

Definition JointModelHX (pitch : R) : JointModel :=
  mkJointModel 1 1
    (fun q => mkSE3 (AngleAxis_UnitX (config_head q))
                    (vscale (config_head q * pitch) UnitX))
    (fun _ => [mkMotion (vscale pitch UnitX) UnitX]).

(** The joint of index 0, the universe, which has no degree of freedom. *)
Definition JointModelUniverse : JointModel :=
  mkJointModel 0 0 (fun _ => SE3_Identity) (fun _ => []).

(** Modelled from the spec: the kinematic tree.  Per joint index: the index
    of the parent, the placement in the parent frame, the kernel, and the
    first position and velocity coordinates of the joint. *)
Record Model : Type := mkModel {
  parents : list nat;
  jointPlacements : list (SE3 R);
  joints : list JointModel;
  idx_qs : list nat;
  idx_vs : list nat;
  nq : nat;
  nv : nat
}.

Definition njoints (model : Model) : nat := length (joints model).

(** A model as constructed: the universe alone. *)
Definition Model_new : Model :=
  mkModel [0%nat] [SE3_Identity] [JointModelUniverse] [0%nat] [0%nat] 0 0.

(** Modelled from the spec: [model.addJoint(parent, jmodel, placement, name)]
    appends a joint, reserves its coordinates and returns its index. *)
Definition addJoint (model : Model) (parent : nat) (jmodel : JointModel)
    (joint_placement : SE3 R) : Model * nat :=
  (mkModel (parents model ++ [parent])
           (jointPlacements model ++ [joint_placement])
           (joints model ++ [jmodel])
           (idx_qs model ++ [nq model])
           (idx_vs model ++ [nv model])
           (nq model + joint_nq jmodel)
           (nv model + joint_nv jmodel),
   njoints model).

(** [addJointAndBody] of [unittest/joint-helical.cpp]; the name of the joint
    and the inertia of the body play no part in the kinematics. *)
Definition addJointAndBody (model : Model) (jmodel : JointModel)
    (parent_id : nat) (joint_placement : SE3 R) : Model :=
  fst (addJoint model parent_id jmodel joint_placement).

(** Modelled from the spec: the per-query snapshot.  [oMi] and [liMi] are the
    placements of each joint frame in the world and in the parent frame, [J]
    is the global Jacobian, stored as the list of its [nv] columns. *)
Record Data : Type := mkData {
  oMi : list (SE3 R);
  liMi : list (SE3 R);
  J : list (Motion R)
}.

Definition Data_new (model : Model) : Data :=
  mkData (replicate (njoints model) SE3_Identity)
         (replicate (njoints model) SE3_Identity)
         (replicate (nv model) Motion_Zero).

Definition joint_config (model : Model) (i : nat) (jmodel : JointModel)
    (q : list R) : list R :=
  take (joint_nq jmodel) (drop (default 0%nat (idx_qs model !! i)) q).

(** Modelled from the spec: forward kinematics, joint after joint in the
    order of the indices: the placement in the parent frame is the static
    placement composed with the joint transform, the placement in the world
    is the one of the parent composed with it. *)
Definition forwardKinematics_step (model : Model) (q : list R)
    (data : Data) (i : nat) : Data :=
  match joints model !! i, parents model !! i, jointPlacements model !! i with
  | Some jmodel, Some parent, Some placement =>
      let li := SE3_mul placement
                  (joint_transform jmodel (joint_config model i jmodel q)) in
      let o := if (0 <? parent)%nat
               then SE3_mul (default SE3_Identity (oMi data !! parent)) li
               else li in
      mkData (<[i := o]> (oMi data)) (<[i := li]> (liMi data)) (J data)
  | _, _, _ => data
  end.

Definition forwardKinematics (model : Model) (data : Data) (q : list R) : Data :=
  foldl (forwardKinematics_step model q) data (seq 1 (njoints model - 1)).

(** Writes [cols] into the columns [start], [start + 1], ... of [Jmat]. *)
Fixpoint set_cols (start : nat) (cols : list (Motion R))
    (Jmat : list (Motion R)) : list (Motion R) :=
  match cols with
  | [] => Jmat
  | c :: cols' => set_cols (S start) cols' (<[start := c]> Jmat)
  end.

(** Modelled from the spec: [computeJointJacobians(model, data, q)] runs the
    forward kinematics and then, for every joint in tree order, writes the
    joint's motion subspace, transformed into the world frame by the world
    placement of the joint, into the joint's columns of [data.J]. *)
Definition computeJointJacobians_step (model : Model) (q : list R)
    (data : Data) (i : nat) : Data :=
  match joints model !! i, idx_vs model !! i, oMi data !! i with
  | Some jmodel, Some idx_v, Some oMi_i =>
      let S := joint_subspace jmodel (joint_config model i jmodel q) in
      mkData (oMi data) (liMi data)
             (set_cols idx_v (map (SE3_act oMi_i) S) (J data))
  | _, _, _ => data
  end.

Definition computeJointJacobians (model : Model) (data : Data) (q : list R) : Data :=
  let data := forwardKinematics model data q in
  foldl (computeJointJacobians_step model q) data (seq 1 (njoints model - 1)).

(** The joints from [joint_id] up to the root, the universe excluded. *)
Fixpoint ancestors_from (fuel : nat) (parents : list nat) (j : nat) : list nat :=
  match fuel with
  | O => []
  | S fuel' =>
      if (j =? 0)%nat then []
      else j :: ancestors_from fuel' parents (default 0%nat (parents !! j))
  end.

Definition ancestors (model : Model) (joint_id : nat) : list nat :=
  ancestors_from (njoints model) (parents model) joint_id.

(** The columns of the Jacobian that belong to joint [i]. *)
Definition joint_columns (model : Model) (i : nat) : list nat :=
  match joints model !! i, idx_vs model !! i with
  | Some jmodel, Some idx_v => seq idx_v (joint_nv jmodel)
  | _, _ => []
  end.

(** A column of [data.J] re-expressed in the requested frame. *)
Definition reexpress (rf : ReferenceFrame) (oMjoint : SE3 R) (v_in : Motion R)
    : Motion R :=
  match rf with
  | WORLD => v_in
  | LOCAL_WORLD_ALIGNED =>
      mkMotion (vsub (linear v_in) (cross (translation oMjoint) (angular v_in)))
               (angular v_in)
  | LOCAL => SE3_actInv oMjoint v_in
  end.

(** [v_out = f(v_in)] on column [c]: the column of [Jdata] is read, converted
    and stored in the same column of [Jout]. *)
Definition copy_column (f : Motion R -> Motion R) (Jdata Jout : list (Motion R))
    (c : nat) : list (Motion R) :=
  match Jdata !! c with
  | Some v_in => <[c := f v_in]> Jout
  | None => Jout
  end.

(** Modelled from the spec: [getJointJacobian(model, data, joint_id, rf, J)],
    whose body is in [algorithm/jacobian.hxx].  It copies, from [data.J] into
    the matrix supplied by the caller, every column that belongs to
    [joint_id] or to one of its ancestors, re-expressed in the frame [rf];
    it writes no other column. *)
Definition getJointJacobian (model : Model) (data : Data) (joint_id : nat)
    (reference_frame : ReferenceFrame) (Jout : list (Motion R)) : list (Motion R) :=
  let oMjoint := default SE3_Identity (oMi data !! joint_id) in
  foldl (copy_column (reexpress reference_frame oMjoint) (J data))
        Jout
        (concat (map (joint_columns model) (ancestors model joint_id))).

(** The overload of [getJointJacobian] that returns its result, as defined in
    [jacobian.hpp]: the in-place version run on [Zero(6, model.nv)]. *)
Definition getJointJacobian_value (model : Model) (data : Data) (joint_id : nat)
    (reference_frame : ReferenceFrame) : list (Motion R) :=
  let res := replicate (nv model) Motion_Zero in
  getJointJacobian model data joint_id reference_frame res.

(** *** The models of the test [vsPXRX] *)

Definition pitch : R := 0.4.

Definition modelHX : Model :=
  addJointAndBody Model_new (JointModelHX pitch) 0 SE3_Identity.

Definition modelPXRX : Model :=
  addJointAndBody
    (addJointAndBody Model_new JointModelPX 0 SE3_Identity)
    JointModelRX 1 SE3_Identity.

(** [VectorXd::Ones(n)]. *)
Definition Ones (n : nat) : list R := replicate n 1.

Definition q_hx : list R := Ones (nq modelHX).
Definition q_PXRX : list R :=
  <[0%nat := config_head q_hx * pitch]> (Ones (nq modelPXRX)).

Definition dataPXRX : Data :=
  computeJointJacobians modelPXRX (Data_new modelPXRX) q_PXRX.



(** ** Python bindings of [std::vector]

    [bindings/python/utils/std-vector.hpp] exposes a [std::vector] to Python:
    indexing with Python's conventions, and the conversion of a Python list
    into a vector passed by reference, whose elements are copied back into
    the list when the call returns.  The Python objects are seen through what
    the code asks of them. *)

(** A Python object: [None], an [int] of any size, a [list], a [tuple] (an
    iterable for which [PyList_Check] fails), or an instance that wraps a C++
    object held at some address. *)
#[local] Unset Elimination Schemes.
Inductive PyObject : Type :=
| PyNone : PyObject
| PyLong : Z -> PyObject
| PyList : list PyObject -> PyObject
| PyTuple : list PyObject -> PyObject
| PyInstance : nat -> PyObject.
#[local] Set Elimination Schemes.

(** The Python exceptions the file sets: [IndexError] ("Index out of range"),
    [TypeError] ("Invalid index type", or a failed extraction) and [KeyError]
    ("Invalid index"); and [OverflowError], which the conversion of an [int]
    to a [long] sets when the value does not fit. *)
Inductive PyErr : Set :=
| PyExc_IndexError
| PyExc_TypeError
| PyExc_KeyError
| PyExc_OverflowError.

(** A call either returns or leaves through [throw_error_already_set]; an
    exception that leaves a destructor, which is [noexcept], ends the program
    in [std::terminate]. *)
Inductive py_result (A : Type) : Type :=
| Returns : A -> py_result A
| Raises : PyErr -> py_result A
| Terminates : py_result A.

Arguments Returns {A} _.
Arguments Raises {A} _.
Arguments Terminates {A}.

(** The type [long], 64 bits wide, and the conversion of an integer to it. *)
Definition long_min : Z := - 2 ^ 63.
Definition long_max : Z := 2 ^ 63 - 1.
Definition to_long (z : Z) : Z := (z + 2 ^ 63) mod 2 ^ 64 - 2 ^ 63.

(** [bp::extract<long> i(i_)]: [i.check()] holds on every [int]; the [int]
    it holds is the one [i()] converts. *)
Definition extract_long (i_ : PyObject) : option Z :=
  match i_ with
  | PyLong index => Some index
  | _ => None
  end.

(** [i()]: the conversion of the [int] to a [long], which raises
    [OverflowError] on a value outside the range of the type. *)
Definition long_value (index : Z) : py_result Z :=
  if (long_min <=? index)%Z && (index <=? long_max)%Z
  then Returns index
  else Raises PyExc_OverflowError.

(** [overload_base_get_item_for_std_vector::convert_index].  The sum
    [index += container.size()] is taken modulo [2^64] and read back as a
    [long]; so is [long(container.size())]. *)
Definition convert_index {A : Type} (container : list A) (i_ : PyObject)
    : py_result nat :=
  match extract_long i_ with
  | Some i =>
      match long_value i with
      | Returns index =>
          let size := Z.of_nat (length container) in
          let index :=
            if (index <? 0)%Z then to_long (index + size) else index in
          if (to_long size <=? index)%Z || (index <? 0)%Z
          then Raises PyExc_IndexError
          else Returns (Z.to_nat index)
      | Raises e => Raises e
      | Terminates => Terminates
      end
  | None => Raises PyExc_TypeError
  end.

(** [overload_base_get_item_for_std_vector::base_get_item]: the iterator is
    advanced by [idx] from [begin()] and compared with [end()]; the element it
    points to is returned by reference. *)
Definition base_get_item {A : Type} (container : list A) (i_ : PyObject)
    : py_result A :=
  match convert_index container i_ with
  | Raises e => Raises e
  | Terminates => Terminates
  | Returns idx =>
      match container !! idx with
      | Some elt => Returns elt
      | None => Raises PyExc_KeyError
      end
  end.

Section StdContainerFromPythonList.
Context {T : Type}.

(** [bp::extract<T>]: the value an object converts to, if any; [check()]
    tells whether there is one. *)
Variable extract : PyObject -> option T.

Definition check (elt : PyObject) : bool :=
  match extract elt with
  | Some _ => true
  | None => false
  end.

(** The loop over [k < list_size], which leaves at the first element that
    does not convert. *)
Fixpoint all_elements_check (bp_list : list PyObject) : bool :=
  match bp_list with
  | [] => true
  | elt :: bp_list' => if check elt then all_elements_check bp_list' else false
  end.

(** [details::from_python_list], for the element type [T]. *)
Definition from_python_list (obj_ptr : PyObject) : bool :=
  match obj_ptr with
  | PyList bp_list => all_elements_check bp_list
  | _ => false
  end.

(** [StdContainerFromPythonList::convertible]: [obj_ptr] or the null
    pointer. *)
Definition convertible (obj_ptr : PyObject) : option PyObject :=
  match obj_ptr with
  | PyList bp_list => if all_elements_check bp_list then Some obj_ptr else None
  | _ => None
  end.

(** [vector_type(iterator(bp_list), iterator())] with
    [bp::stl_input_iterator<T>]: every element is extracted in turn, and an
    element that does not convert raises. *)
Fixpoint stl_input (bp_list : list PyObject) : py_result (list T) :=
  match bp_list with
  | [] => Returns []
  | elt :: bp_list' =>
      match extract elt with
      | None => Raises PyExc_TypeError
      | Some x =>
          match stl_input bp_list' with
          | Returns vec => Returns (x :: vec)
          | Raises e => Raises e
          | Terminates => Terminates
          end
      end
  end.

(** [bp::list bp_list(bp_obj)], Python's [list(obj)]: a new list with the
    elements of an iterable; an object that is not iterable raises. *)
Definition bp_list_of (bp_obj : PyObject) : py_result (list PyObject) :=
  match bp_obj with
  | PyList items => Returns items
  | PyTuple items => Returns items
  | _ => Raises PyExc_TypeError
  end.

(** [StdContainerFromPythonList::construct]: the vector built in the storage
    of the converter.  The function does not check that [obj_ptr] is a list:
    it reads the elements of whatever [bp::list] makes of it. *)
Definition construct (obj_ptr : PyObject) : py_result (list T) :=
  match bp_list_of obj_ptr with
  | Returns bp_list => stl_input bp_list
  | Raises e => Raises e
  | Terminates => Terminates
  end.

End StdContainerFromPythonList.

Section ReferenceArgFromPython.
Context {T : Type}.

(** The C++ objects the Python instances wrap: the object at address [a] is
    [heap !! a]. *)
Definition extract_instance (heap : list T) (elt : PyObject) : option T :=
  match elt with
  | PyInstance a => heap !! a
  | _ => None
  end.

(** The loop in the body of [~reference_arg_from_python], from index [i] on:
    [rest] is what is left of [vec].  [bp_list[i]] raises past the end of the
    list, [extract<Type &>] raises on an object that wraps no [Type], and
    [elt = vec[i]] assigns to the wrapped object. *)
Fixpoint copy_back_from (i : nat) (rest : list T) (bp_list : list PyObject)
    (heap : list T) : py_result (list T) :=
  match rest with
  | [] => Returns heap
  | x :: rest' =>
      match bp_list !! i with
      | None => Raises PyExc_IndexError
      | Some (PyInstance a) =>
          if (a <? length heap)%nat
          then copy_back_from (S i) rest' bp_list (<[a := x]> heap)
          else Raises PyExc_TypeError
      | Some _ => Raises PyExc_TypeError
      end
  end.

Definition copy_back (vec : list T) (bp_list : list PyObject) (heap : list T)
    : py_result (list T) :=
  copy_back_from 0 vec bp_list heap.

(** [~reference_arg_from_python], once the vector has been built from the
    list.  The destructor is declared without an exception specification, so
    from C++11 on it is [noexcept]: an exception raised by the loop does not
    reach the caller, the program ends in [std::terminate]. *)
Definition destructor (vec : list T) (bp_list : list PyObject)
    (heap : list T) : py_result (list T) :=
  match copy_back vec bp_list heap with
  | Returns heap' => Returns heap'
  | Raises _ => Terminates
  | Terminates => Terminates
  end.

(** [reference_arg_from_python<std::vector<Type> &>] around a call [f] that
    takes the vector by reference, for an argument that is a Python list: the
    constructor checks the list and builds the vector, [f] runs on it, and
    the destructor copies the vector back.  The result is the heap after the
    call; an argument that does not convert leaves no vector to call [f]
    on. *)
Definition call_with_list (f : list T -> list T) (m_source : PyObject)
    (heap : list T) : py_result (list T) :=
  match m_source with
  | PyList bp_list =>
      if from_python_list (extract_instance heap) m_source then
        match construct (extract_instance heap) m_source with
        | Returns vec => destructor (f vec) bp_list heap
        | Raises e => Raises e
        | Terminates => Terminates
        end
      else Raises PyExc_TypeError
  | _ => Raises PyExc_TypeError
  end.

End ReferenceArgFromPython.

(** ** Injection of real transforms, motions and 6x6 matrices *)

Definition XSE3 (M : SE3 R) : SE3 xreal :=
  mkSE3 (XMat (rotation M)) (XVec (translation M)).

Definition XMotion (m : Motion R) : Motion xreal :=
  mkMotion (XVec (linear m)) (XVec (angular m)).

Definition XMat6 (J : Matrix6 R) : Matrix6 xreal :=
  mkMatrix6 (XMat (topLeftCorner J)) (XMat (topRightCorner J))
            (XMat (bottomLeftCorner J)) (XMat (bottomRightCorner J)).

(** ** The models of the test [vsPXRX], for any pitch and configuration *)




(** * Proofs *)

(** ** Tactics and arithmetic facts *)

Ltac scalar_R :=
  cbn [ofZ ofQ s_add s_sub s_mul s_div s_opp math_sqrt math_sin math_cos
       math_acos PI_ s_ltb s_leb s_eqb R_Scalar].

Ltac scalar_X :=
  cbn [ofZ ofQ s_add s_sub s_mul s_div s_opp math_sqrt math_sin math_cos
       math_acos PI_ s_ltb s_leb s_eqb xreal_Scalar xlift1 xlift2 xcmp].

Ltac coefficients :=
  cbn [m00 m01 m02 m10 m11 m12 m20 m21 m22 v0 v1 v2].

Lemma Rltb_spec (x y : R) : reflect (x < y) (Rltb x y).
Proof. unfold Rltb. destruct (Rlt_dec x y); constructor; assumption. Qed.

Lemma Rleb_spec (x y : R) : reflect (x <= y) (Rleb x y).
Proof. unfold Rleb. destruct (Rle_dec x y); constructor; assumption. Qed.

Lemma PI_gt_3 : 3 < PI.
Proof. pose proof PI2_3_2. lra. Qed.

Lemma Q2R_half : Q2R (1 # 2) = / 2.
Proof. unfold Q2R. simpl. lra. Qed.

Lemma Q2R_centi : Q2R (1 # 100) = 1e-2.
Proof. unfold Q2R. simpl. lra. Qed.

Lemma vector3_eq (a b : Vector3 R) :
  v0 a = v0 b -> v1 a = v1 b -> v2 a = v2 b -> a = b.
Proof. destruct a, b; simpl; intros; subst; reflexivity. Qed.

Lemma matrix3_eq (A B : Matrix3 R) :
  m00 A = m00 B -> m01 A = m01 B -> m02 A = m02 B ->
  m10 A = m10 B -> m11 A = m11 B -> m12 A = m12 B ->
  m20 A = m20 B -> m21 A = m21 B -> m22 A = m22 B -> A = B.
Proof. destruct A, B; simpl; intros; subst; reflexivity. Qed.



Lemma sqrt_Rmax_0 (x : R) :
  sqrt (Rmax 0 x) = if Rlt_dec 0 x then sqrt x else 0.
Proof.
  unfold Rmax. destruct (Rle_dec 0 x), (Rlt_dec 0 x); try lra; try reflexivity.
  - replace x with 0 by lra. apply sqrt_0.
  - apply sqrt_0.
Qed.

Lemma sqrt_Rmax_scale (t x : R) :
  0 <= t -> sqrt (Rmax 0 (t * t * x)) = t * sqrt (Rmax 0 x).
Proof.
  intros Ht. unfold Rmax.
  destruct (Rle_dec 0 x) as [Hx|Hx], (Rle_dec 0 (t * t * x)) as [Htx|Htx].
  - rewrite sqrt_mult by nra. rewrite sqrt_square by lra. reflexivity.
  - exfalso. apply Htx. apply Rmult_le_pos; nra.
  - assert (t * t * x = 0) as -> by nra. rewrite sqrt_0. lra.
  - rewrite sqrt_0. lra.
Qed.

Lemma strict_sign_tie (a : R) : strict_sign a a = -1.
Proof. unfold strict_sign. destruct (Rlt_dec a a); [lra|reflexivity]. Qed.

(** ** Rotation matrices *)

(** The antisymmetric part of a rotation has squared norm
    [(1 + tr)(3 - tr)]. *)
Lemma rotation_antisymmetric_norm (M : Matrix3 R) :
  is_rotation M ->
  (m21 M - m12 M) * (m21 M - m12 M) + (m02 M - m20 M) * (m02 M - m20 M)
  + (m10 M - m01 M) * (m10 M - m01 M) = (1 + trace M) * (3 - trace M).
Proof.
  destruct M as [a b c d e f g h i].
  unfold is_rotation, trace, det3, mmul, mtranspose, Identity3.
  scalar_R. coefficients.
  intros [Ho Hd]. injection Ho as H00 H01 H02 H10 H11 H12 H20 H21 H22.
  nsatz.
Qed.

Lemma rotation_trace_bounds (M : Matrix3 R) :
  is_rotation M -> -1 <= trace M <= 3.
Proof.
  intros HM. pose proof (rotation_antisymmetric_norm M HM) as Hn.
  assert (Hle : trace M <= 3).
  { destruct HM as [Ho _]. destruct M as [a b c d e f g h i].
    unfold trace, mmul, mtranspose, Identity3 in *. revert Ho. scalar_R.
    coefficients.
    intros Ho. injection Ho as H00 H01 H02 H10 H11 H12 H20 H21 H22.
    assert (a <= 1) by (clear - H00; nra).
    assert (e <= 1) by (clear - H11; nra).
    assert (i <= 1) by (clear - H22; nra).
    lra. }
  split; [|exact Hle].
  destruct (Rle_dec (-1) (trace M)) as [|Hn1]; [assumption|exfalso].
  assert (0 <= (1 + trace M) * (3 - trace M)).
  { rewrite <- Hn.
    pose proof (Rle_0_sqr (m21 M - m12 M)).
    pose proof (Rle_0_sqr (m02 M - m20 M)).
    pose proof (Rle_0_sqr (m10 M - m01 M)). unfold Rsqr in *. lra. }
  nra.
Qed.

Lemma is_rotation_Rx_pi : is_rotation Rx_pi.
Proof.
  unfold is_rotation, Rx_pi, Identity3, mmul, mtranspose, det3. scalar_R.
  coefficients. split; [f_equal|]; lra.
Qed.

(** ** The rotation logarithm over the real numbers *)

Section Log3.
Context {T : TaylorSeriesExpansion R}.

Lemma log3_fst (M : Matrix3 R) : fst (log3 M) = log3_theta M.
Proof. reflexivity. Qed.

Lemma log3_theta_eq (M : Matrix3 R) :
  log3_theta M =
    if Rle_dec 3 (trace M) then 0
    else if Rle_dec (trace M) (-1) then PI
    else acos ((trace M - 1) / 2).
Proof.
  unfold log3_theta, if_then_else, PI_value. scalar_R.
  unfold Rleb.
  destruct (Rle_dec 3 (trace M)), (Rle_dec (trace M) (-1)); reflexivity.
Qed.

Lemma log3_theta_bound (M : Matrix3 R) : 0 <= log3_theta M <= PI.
Proof.
  rewrite log3_theta_eq. pose proof PI_gt_3.
  destruct (Rle_dec 3 _); [lra|].
  destruct (Rle_dec _ (-1)); [lra|]. apply acos_bound.
Qed.

(** The clamped trace is the trace cut to [-1, 3]. *)
Lemma log3_clamped_trace_eq (M : Matrix3 R) :
  log3_clamped_trace M = Rmax (Rmin (trace M) 3) (-1).
Proof.
  unfold log3_clamped_trace, math_max, math_min. scalar_R.
  unfold Rmax, Rmin.
  destruct (Rltb_spec 3 (trace M)), (Rle_dec (trace M) 3); try lra;
    match goal with |- context [Rltb ?a ?b] => destruct (Rltb_spec a b) end;
    match goal with |- context [Rle_dec ?a ?b] => destruct (Rle_dec a b) end;
    lra.
Qed.

Lemma rotation_clamped_trace (M : Matrix3 R) :
  is_rotation M -> log3_clamped_trace M = trace M.
Proof.
  intros HM. pose proof (rotation_trace_bounds M HM).
  rewrite log3_clamped_trace_eq. unfold Rmax, Rmin.
  destruct (Rle_dec (trace M) 3); [|lra].
  destruct (Rle_dec (trace M) (-1)); lra.
Qed.

(** What [res] holds on each side of the margin, with the operations of
    the code. *)
Lemma log3_snd_away (M : Matrix3 R) :
  log3_theta M < PI - 1e-2 ->
  snd (log3 M) =
    vscale ((if Rlt_dec precision3 (log3_theta M)
             then log3_theta M / sin (log3_theta M) else 1) / 2)
           (antisymmetric_vee M).
Proof.
  intros Hlt. unfold log3, log3_impl_run, if_then_else, PI_value. scalar_R.
  rewrite Q2R_centi.
  destruct (Rleb_spec (PI - 1e-2) (log3_theta M)); [lra|].
  unfold snd, vscale, antisymmetric_vee, vee, madd, mopp, mtranspose. scalar_R.
  unfold Rltb. destruct (Rlt_dec precision3 (log3_theta M)); reflexivity.
Qed.

Lemma log3_snd_near (M : Matrix3 R) :
  PI - 1e-2 <= log3_theta M ->
  snd (log3 M) =
    mkVector3
      (strict_sign (m21 M) (m12 M) * sqrt (Rmax 0 (log3_tmp M (m00 M))))
      (strict_sign (m02 M) (m20 M) * sqrt (Rmax 0 (log3_tmp M (m11 M))))
      (strict_sign (m10 M) (m01 M) * sqrt (Rmax 0 (log3_tmp M (m22 M)))).
Proof.
  intros Hge. unfold log3, log3_impl_run, if_then_else, PI_value. scalar_R.
  rewrite Q2R_centi.
  destruct (Rleb_spec (PI - 1e-2) (log3_theta M)); [|lra].
  rewrite !sqrt_Rmax_0.
  unfold strict_sign, log3_tmp, log3_clamped_trace, Rltb. scalar_R.
  cbn [snd v0 v1 v2].
  repeat match goal with
  | |- context [Rlt_dec ?a ?b] => destruct (Rlt_dec a b)
  end; reflexivity.
Qed.

(** *** The half turns about the coordinate axes *)

Lemma log3_theta_trace_m1 (M : Matrix3 R) : trace M = -1 -> log3_theta M = PI.
Proof.
  intros Htr. rewrite log3_theta_eq, Htr.
  destruct (Rle_dec 3 (-1)); [lra|].
  destruct (Rle_dec (-1) (-1)); [reflexivity|lra].
Qed.

Lemma log3_tmp_trace_m1 (M : Matrix3 R) (d : R) :
  trace M = -1 -> log3_tmp M d = (d + 1) / 2 * (PI * PI).
Proof.
  intros Htr. unfold log3_tmp.
  rewrite log3_clamped_trace_eq, (log3_theta_trace_m1 M Htr), Htr.
  replace (Rmax (Rmin (-1) 3) (-1)) with (-1).
  - field.
  - unfold Rmax, Rmin. destruct (Rle_dec (-1) 3); [|lra].
    destruct (Rle_dec (-1) (-1)); lra.
Qed.

Lemma sqrt_Rmax_PI2 : sqrt (Rmax 0 ((1 + 1) / 2 * (PI * PI))) = PI.
Proof.
  pose proof PI_gt_3.
  replace ((1 + 1) / 2 * (PI * PI)) with (PI * PI) by field.
  rewrite Rmax_right by nra. apply sqrt_square. lra.
Qed.

Lemma sqrt_Rmax_zero : sqrt (Rmax 0 ((-1 + 1) / 2 * (PI * PI))) = 0.
Proof.
  replace ((-1 + 1) / 2 * (PI * PI)) with 0 by field.
  rewrite Rmax_left by lra. apply sqrt_0.
Qed.

Ltac half_turn R_pi :=
  let Htr := fresh "Htr" in
  let Hth := fresh "Hth" in
  assert (Htr : trace R_pi = -1)
    by (unfold trace, R_pi; scalar_R; simpl; lra);
  pose proof (log3_theta_trace_m1 _ Htr) as Hth; pose proof PI_gt_3;
  rewrite (surjective_pairing (log3 R_pi)), log3_fst, Hth;
  rewrite log3_snd_near by lra;
  rewrite !log3_tmp_trace_m1 by exact Htr;
  cbn [R_pi m00 m01 m02 m10 m11 m12 m20 m21 m22];
  rewrite sqrt_Rmax_PI2, sqrt_Rmax_zero, !strict_sign_tie;
  f_equal; apply vector3_eq; cbn [v0 v1 v2]; lra.

Lemma log3_Rx_pi : log3 Rx_pi = (PI, mkVector3 (- PI) 0 0).
Proof. half_turn Rx_pi. Qed.

Lemma log3_Ry_pi : log3 Ry_pi = (PI, mkVector3 0 (- PI) 0).
Proof. half_turn Ry_pi. Qed.

Lemma log3_Rz_pi : log3 Rz_pi = (PI, mkVector3 0 0 (- PI)).
Proof. half_turn Rz_pi. Qed.

Lemma log3_Rz_half_pi_theta : log3_theta Rz_half_pi = PI / 2.
Proof.
  rewrite log3_theta_eq.
  assert (Htr : trace Rz_half_pi = 1)
    by (unfold trace, Rz_half_pi; scalar_R; simpl; lra).
  rewrite Htr. destruct (Rle_dec 3 1); [lra|]. destruct (Rle_dec 1 (-1)); [lra|].
  replace ((1 - 1) / 2) with 0 by lra. apply acos_0.
Qed.

Lemma log3_Identity3 : log3 Identity3 = (0, Vector3_Zero).
Proof.
  assert (Htr : trace Identity3 = 3)
    by (unfold trace, Identity3; scalar_R; simpl; lra).
  assert (Hth : log3_theta Identity3 = 0).
  { rewrite log3_theta_eq, Htr. destruct (Rle_dec 3 3); [reflexivity|lra]. }
  pose proof PI_gt_3.
  rewrite (surjective_pairing (log3 Identity3)), log3_fst.
  rewrite log3_snd_away by lra. rewrite Hth. f_equal.
  apply vector3_eq;
    unfold antisymmetric_vee, vee, madd, mopp, mtranspose, Identity3,
      Vector3_Zero, vscale;
    scalar_R; coefficients; lra.
Qed.

(** *** The claims on [log3] *)

(** C1.  For every 3x3 matrix [M], a rotation matrix or not, the angle
    [theta] that [log3] returns is [0] when the trace is at least [3], [pi]
    when the trace is at most [-1], and [acos ((tr - 1) / 2)] in between;
    in every case it lies in [[0, pi]]. *)
Theorem log3_angle_from_trace (M : Matrix3 R) :
  let tr := trace M in
  let theta := fst (log3 M) in
  (3 <= tr -> theta = 0) /\
  (tr <= -1 -> theta = PI) /\
  (-1 < tr < 3 -> theta = acos ((tr - 1) / 2)) /\
  0 <= theta <= PI.
Proof.
  intros tr theta. subst theta. rewrite log3_fst.
  split; [|split; [|split]]; try apply log3_theta_bound;
    rewrite log3_theta_eq; fold tr; intros;
    destruct (Rle_dec 3 tr); try lra;
    destruct (Rle_dec tr (-1)); try lra; reflexivity.
Qed.

(** C2.  When the angle [theta] is below the margin [pi - 1e-2], the
    rotation vector is the vee of the antisymmetric part [M - M^T] scaled by
    [theta / (2 sin theta)] if [theta] exceeds the precision threshold, and
    by [1/2], the Taylor value of that factor, if [theta] is at or below
    the threshold. *)
Theorem log3_away_from_pi (M : Matrix3 R) :
  let theta := fst (log3 M) in
  let r := snd (log3 M) in
  theta < PI - 1e-2 ->
  (precision3 < theta ->
     r = vscale (theta / (2 * sin theta)) (antisymmetric_vee M)) /\
  (theta <= precision3 ->
     r = vscale (1 / 2) (antisymmetric_vee M)).
Proof.
  intros theta r Hlt. subst theta r. rewrite log3_fst in *.
  rewrite (log3_snd_away M Hlt).
  split; intros Hp; destruct (Rlt_dec precision3 (log3_theta M)); try lra;
    f_equal.
  unfold Rdiv. rewrite Rinv_mult. ring.
Qed.

(** C3, as amended.  For a rotation matrix [M] whose angle [theta] is at
    least [pi - 1e-2], each component of the rotation vector is the sign
    factor, [+1] when [M(j,k) > M(k,j)] and [-1] otherwise, times
    [theta * sqrt (max 0 ((M(i,i) + cphi) / (1 + cphi)))] with
    [cphi = - (tr M - 1) / 2]: the square root carries the factor [theta],
    which comes from [beta = theta^2 / (1 + cphi)] under the root. *)
Theorem log3_near_pi_components (M : Matrix3 R) :
  is_rotation M ->
  let theta := fst (log3 M) in
  let r := snd (log3 M) in
  let cphi := - (trace M - 1) / 2 in
  PI - 1e-2 <= theta ->
  v0 r = strict_sign (m21 M) (m12 M)
         * (theta * sqrt (Rmax 0 ((m00 M + cphi) / (1 + cphi)))) /\
  v1 r = strict_sign (m02 M) (m20 M)
         * (theta * sqrt (Rmax 0 ((m11 M + cphi) / (1 + cphi)))) /\
  v2 r = strict_sign (m10 M) (m01 M)
         * (theta * sqrt (Rmax 0 ((m22 M + cphi) / (1 + cphi)))).
Proof.
  intros HM theta r cphi Hge. subst theta r. rewrite log3_fst in *.
  rewrite (log3_snd_near M Hge). cbn [v0 v1 v2].
  pose proof (log3_theta_bound M) as [Hth _].
  assert (Htmp : forall d, log3_tmp M d
            = log3_theta M * log3_theta M * ((d + cphi) / (1 + cphi))).
  { intros d. unfold log3_tmp. rewrite (rotation_clamped_trace M HM).
    fold cphi. unfold Rdiv. ring. }
  rewrite !Htmp, !sqrt_Rmax_scale by exact Hth. repeat split; reflexivity.
Qed.

(** C10.  In the branch around [pi] the sign factor of each component comes
    from a strict comparison: [+1] when [M(j,k) > M(k,j)], [-1] otherwise,
    the tie included.  Hence the half turn about a coordinate axis, whose
    off-diagonal coefficients are all equal, is sent to [- pi * axis]. *)
Theorem log3_near_pi_sign_is_strict :
  (forall M : Matrix3 R,
      PI - 1e-2 <= fst (log3 M) ->
      let r := snd (log3 M) in
      let magnitude d := sqrt (Rmax 0 (log3_tmp M d)) in
      v0 r = (if Rlt_dec (m12 M) (m21 M) then 1 else -1) * magnitude (m00 M) /\
      v1 r = (if Rlt_dec (m20 M) (m02 M) then 1 else -1) * magnitude (m11 M) /\
      v2 r = (if Rlt_dec (m01 M) (m10 M) then 1 else -1) * magnitude (m22 M)) /\
  log3 Rx_pi = (PI, vscale (- PI) UnitX) /\
  log3 Ry_pi = (PI, vscale (- PI) UnitY) /\
  log3 Rz_pi = (PI, vscale (- PI) UnitZ).
Proof.
  split; [|split; [|split]].
  - intros M Hge r magnitude. subst r magnitude. rewrite log3_fst in Hge.
    rewrite (log3_snd_near M Hge). cbn [v0 v1 v2]. unfold strict_sign.
    repeat split; reflexivity.
  - rewrite log3_Rx_pi. f_equal. apply vector3_eq; cbn; lra.
  - rewrite log3_Ry_pi. f_equal. apply vector3_eq; cbn; lra.
  - rewrite log3_Rz_pi. f_equal. apply vector3_eq; cbn; lra.
Qed.
End Log3.

Lemma log3_angle_from_trace_witness :
  fst (log3 (taylor := precision3_double) Identity3) = 0 /\
  fst (log3 (taylor := precision3_double) Rx_pi) = PI /\
  fst (log3 (taylor := precision3_double) Rz_half_pi)
  = acos ((trace Rz_half_pi - 1) / 2).
Proof.
  split; [|split].
  - apply (proj1 (@log3_angle_from_trace precision3_double Identity3)).
    unfold trace, Identity3. scalar_R. simpl. lra.
  - apply (proj1 (proj2 (@log3_angle_from_trace precision3_double Rx_pi))).
    unfold trace, Rx_pi. scalar_R. simpl. lra.
  - apply (proj1 (proj2 (proj2
             (@log3_angle_from_trace precision3_double Rz_half_pi)))).
    unfold trace, Rz_half_pi. scalar_R. simpl. lra.
Defined.

Lemma log3_away_from_pi_witness :
  snd (log3 (taylor := precision3_double) Rz_half_pi)
  = vscale (PI / 2 / (2 * sin (PI / 2))) (antisymmetric_vee Rz_half_pi).
Proof.
  pose proof PI_gt_3.
  assert (Hth : fst (log3 (taylor := precision3_double) Rz_half_pi) = PI / 2)
    by apply log3_Rz_half_pi_theta.
  rewrite <- Hth.
  apply (proj1 (@log3_away_from_pi precision3_double Rz_half_pi
                  ltac:(rewrite Hth; lra))).
  rewrite Hth. unfold precision3, precision3_double, precision_R. lra.
Defined.

Lemma log3_near_pi_components_witness :
  v0 (snd (log3 (taylor := precision3_double) Rx_pi))
  = strict_sign 0 0 * (PI * sqrt (Rmax 0 ((1 + - (trace Rx_pi - 1) / 2)
                                          / (1 + - (trace Rx_pi - 1) / 2)))).
Proof.
  pose proof PI_gt_3.
  assert (Hth : fst (log3 (taylor := precision3_double) Rx_pi) = PI)
    by (rewrite log3_Rx_pi; reflexivity).
  pattern PI at 1. rewrite <- Hth.
  apply (proj1 (@log3_near_pi_components precision3_double Rx_pi
                  is_rotation_Rx_pi ltac:(rewrite Hth; lra))).
Defined.

(** At the half turn about x the formula without the factor [theta] gives a
    component of magnitude at most [1], whatever sign factor in [[-1, 1]] is
    taken, while the code returns [- pi]. *)
Lemma log3_near_pi_unit_formula_fails :
  let M := Rx_pi in
  let theta := fst (log3 (taylor := precision3_double) M) in
  let r := snd (log3 (taylor := precision3_double) M) in
  let cphi := - (trace M - 1) / 2 in
  PI - 1e-2 <= theta /\
  forall s : R, -1 <= s <= 1 ->
    v0 r <> s * sqrt (Rmax 0 ((m00 M + cphi) / (1 + cphi))).
Proof.
  cbv zeta. rewrite log3_Rx_pi. cbn [fst snd v0]. pose proof PI_gt_3.
  split; [lra|]. intros s Hs.
  assert (Htr : trace Rx_pi = -1) by (unfold trace, Rx_pi; scalar_R; simpl; lra).
  rewrite Htr. cbn [Rx_pi m00].
  replace ((1 + - (-1 - 1) / 2) / (1 + - (-1 - 1) / 2)) with 1 by field.
  rewrite Rmax_right by lra. rewrite sqrt_1. lra.
Qed.

Lemma log3_near_pi_sign_is_strict_witness :
  v0 (snd (log3 (taylor := precision3_double) Rx_pi))
  = (if Rlt_dec (m12 Rx_pi) (m21 Rx_pi) then 1 else -1)
    * sqrt (Rmax 0 (log3_tmp Rx_pi (m00 Rx_pi))).
Proof.
  pose proof PI_gt_3.
  apply (proj1 (@log3_near_pi_sign_is_strict precision3_double) Rx_pi).
  rewrite log3_Rx_pi. cbn [fst]. lra.
Defined.

(** ** The rotation logarithm with a not-a-number value *)

Lemma xdiv_fin (x y : R) : y <> 0 -> xdiv (XFin x) (XFin y) = XFin (x / y).
Proof.
  intros Hy. unfold xdiv. destruct (Req_dec_T y 0); [contradiction|reflexivity].
Qed.

Lemma xsqrt_fin (x : R) : 0 <= x -> xsqrt (XFin x) = XFin (sqrt x).
Proof. intros Hx. unfold xsqrt. destruct (Rlt_dec x 0); [lra|reflexivity]. Qed.

Lemma xacos_fin (x : R) : -1 <= x <= 1 -> xacos (XFin x) = XFin (acos x).
Proof.
  intros Hx. unfold xacos. destruct (Rle_dec (-1) x); [|lra].
  destruct (Rle_dec x 1); [reflexivity|lra].
Qed.

(** On a matrix of real numbers the angle is a real number: the argument of
    [acos] is only outside [-1, 1] when another branch is selected. *)
Lemma log3_theta_XMat (M : Matrix3 R) :
  log3_theta (XMat M) = XFin (log3_theta M).
Proof.
  unfold log3_theta, if_then_else, PI_value, trace, XMat.
  cbn [m00 m11 m22]. scalar_X. scalar_R.
  destruct (Rleb_spec 3 (m00 M + m11 M + m22 M)); [reflexivity|].
  destruct (Rleb_spec (m00 M + m11 M + m22 M) (-1)); [reflexivity|].
  rewrite xdiv_fin by lra. rewrite xacos_fin by lra. reflexivity.
Qed.

Lemma log3_assertion_XMat (M : Matrix3 R) : log3_assertion (XMat M) = true.
Proof.
  unfold log3_assertion. rewrite log3_theta_XMat. scalar_X.
  unfold Reqb. destruct (Req_dec_T (log3_theta M) (log3_theta M)); congruence.
Qed.

Lemma log3_clamped_trace_XMat (M : Matrix3 R) :
  log3_clamped_trace (XMat M) = XFin (log3_clamped_trace M).
Proof.
  unfold log3_clamped_trace, math_max, math_min, trace, XMat.
  cbn [m00 m11 m22]. scalar_X. scalar_R.
  destruct (Rltb 3 (m00 M + m11 M + m22 M)); scalar_X;
    match goal with |- context [Rltb ?a ?b] => destruct (Rltb a b) end;
    reflexivity.
Qed.

(** Around [pi] the denominator [1 + cphi] is not zero. *)
Lemma near_pi_denominator (M : Matrix3 R) :
  PI - 1e-2 <= log3_theta M ->
  1 + - (log3_clamped_trace M - 1) / 2 <> 0.
Proof.
  intros Hge. pose proof PI_gt_3.
  assert (Hlt : trace M < 3).
  { rewrite log3_theta_eq in Hge. destruct (Rle_dec 3 (trace M)); lra. }
  rewrite log3_clamped_trace_eq. unfold Rmax, Rmin.
  destruct (Rle_dec (trace M) 3); [|lra].
  destruct (Rle_dec (trace M) (-1)); lra.
Qed.

(** Around [pi] the result does not depend on the Taylor threshold, and no
    undefined operation reaches it: [theta / sin theta], which is undefined at
    [pi], belongs to the branch that is not selected. *)
Lemma log3_XMat_near {TX : TaylorSeriesExpansion xreal}
    {T : TaylorSeriesExpansion R} (M : Matrix3 R) :
  PI - 1e-2 <= log3_theta M ->
  log3 (XMat M) = (XFin (log3_theta M), XVec (snd (log3 M))).
Proof.
  intros Hge. rewrite (log3_snd_near M Hge).
  unfold log3, log3_impl_run.
  fold (log3_clamped_trace (XMat M)).
  rewrite log3_theta_XMat, log3_clamped_trace_XMat.
  f_equal. unfold XVec, XMat, if_then_else, PI_value.
  coefficients. scalar_X. rewrite Q2R_centi.
  destruct (Rleb_spec (PI - 1e-2) (log3_theta M)) as [_|]; [|contradiction].
  rewrite !(xdiv_fin _ 2) by lra. scalar_X.
  rewrite xdiv_fin by (apply near_pi_denominator; exact Hge). scalar_X.
  rewrite !sqrt_Rmax_0. unfold strict_sign, log3_tmp.
  repeat match goal with
  | |- context [Rltb ?a ?b] => unfold Rltb at 1; destruct (Rlt_dec a b)
  end; scalar_X; rewrite ?xsqrt_fin by lra; scalar_X; reflexivity.
Qed.

(** With a nonnegative threshold, [log3] of a matrix of real numbers is made
    of real numbers everywhere, and they are the ones computed over [R]. *)
Lemma log3_XMat (p : R) (M : Matrix3 R) :
  0 <= p ->
  log3 (taylor := precision_X p) (XMat M)
  = (XFin (fst (log3 (taylor := precision_R p) M)),
     XVec (snd (log3 (taylor := precision_R p) M))).
Proof.
  intros p_nonneg.
  destruct (Rle_dec (PI - 1e-2) (log3_theta M)) as [Hge|Hlt].
  { rewrite (log3_XMat_near (T := precision_R p)) by exact Hge. reflexivity. }
  unfold log3, log3_impl_run. cbn [fst snd].
  fold (log3_clamped_trace (XMat M)). fold (log3_clamped_trace M).
  rewrite log3_theta_XMat, log3_clamped_trace_XMat.
  f_equal. unfold XVec, XMat, if_then_else, PI_value.
  coefficients. cbn [precision3 precision_R precision_X].
  scalar_X. scalar_R. rewrite Q2R_centi.
  destruct (Rleb_spec (PI - 1e-2) (log3_theta M)); [contradiction|].
  apply Rnot_le_lt in Hlt.
  destruct (Rltb_spec p (log3_theta M)) as [Hp|Hp].
  - assert (sin (log3_theta M) <> 0)
      by (pose proof (sin_gt_0 (log3_theta M)); lra).
    rewrite (xdiv_fin _ (sin _)) by assumption.
    rewrite !(xdiv_fin _ 2) by lra. scalar_X. reflexivity.
  - rewrite !(xdiv_fin _ 2) by lra. scalar_X. reflexivity.
Qed.

(** C4, as amended.  For every matrix of finite coefficients, a rotation
    matrix in particular, the angle computed by [log3] is not a NaN and the
    assertion [theta == theta] holds.  For the half turn about each coordinate
    axis the whole result is free of NaN, the angle is [pi] and the rotation
    vector is [- pi * axis]: the closed form [axis * pi] up to the sign, which
    the strict comparison settles toward the negative axis. *)
Theorem log3_no_nan {TX : TaylorSeriesExpansion xreal} :
  (forall M : Matrix3 R,
      is_nan (fst (log3 (XMat M))) = false /\ log3_assertion (XMat M) = true) /\
  (log3 (XMat Rx_pi) = (XFin PI, XVec (vscale (- PI) UnitX)) /\
   vec_has_nan (snd (log3 (XMat Rx_pi))) = false) /\
  (log3 (XMat Ry_pi) = (XFin PI, XVec (vscale (- PI) UnitY)) /\
   vec_has_nan (snd (log3 (XMat Ry_pi))) = false) /\
  (log3 (XMat Rz_pi) = (XFin PI, XVec (vscale (- PI) UnitZ)) /\
   vec_has_nan (snd (log3 (XMat Rz_pi))) = false).
Proof.
  pose proof PI_gt_3 as Hpi.
  assert (Hnear : forall M v axis,
             log3 (taylor := precision3_double) M = (PI, v) ->
             v = vscale (- PI) axis ->
             log3 (XMat M) = (XFin PI, XVec (vscale (- PI) axis))
             /\ vec_has_nan (snd (log3 (XMat M))) = false).
  { intros M v axis HM Hv.
    assert (Hth : log3_theta M = PI)
      by (rewrite <- (@log3_fst precision3_double), HM; reflexivity).
    rewrite (log3_XMat_near (T := precision3_double)) by lra.
    rewrite HM, Hth, <- Hv. split; reflexivity. }
  split; [|split; [|split]].
  - intros M. split.
    + unfold log3, log3_impl_run. cbn [fst]. rewrite log3_theta_XMat. reflexivity.
    + apply log3_assertion_XMat.
  - apply (Hnear _ _ _ log3_Rx_pi). apply vector3_eq; cbn; lra.
  - apply (Hnear _ _ _ log3_Ry_pi). apply vector3_eq; cbn; lra.
  - apply (Hnear _ _ _ log3_Rz_pi). apply vector3_eq; cbn; lra.
Qed.

(** The half turn about x is not sent to [axis * pi]. *)
Lemma log3_half_turn_is_not_axis_pi :
  snd (log3 (taylor := precision3_double) Rx_pi) <> vscale PI UnitX.
Proof.
  rewrite log3_Rx_pi. cbn [snd]. intros Heq.
  apply (f_equal v0) in Heq. cbn in Heq. pose proof PI_gt_3. lra.
Qed.

(** ** The Jacobian of [log3], [log6] and its Jacobian *)

Section LogFormulas.
Context {T : TaylorSeriesExpansion R}.

Lemma Jlog3_closed_form (theta : R) (r : Vector3 R) :
  let st_1mct := sin theta / (1 - cos theta) in
  let alpha := if Rlt_dec theta precision3
               then 1 / 12 + theta * theta / 720
               else 1 / (theta * theta) - st_1mct / (2 * theta) in
  let beta := if Rlt_dec theta precision3
              then 0.5 * (2 - theta * theta / 6)
              else 0.5 * (theta * st_1mct) in
  Jlog3 theta r
  = madd (madd (mscale alpha (outer r r)) (mdiag beta)) (mscale 0.5 (skew r)).
Proof.
  intros st_1mct alpha beta.
  unfold Jlog3, Jlog3_impl_run, if_then_else. scalar_R. unfold Rltb.
  fold st_1mct. subst alpha beta.
  destruct (Rlt_dec theta precision3);
    apply matrix3_eq;
    cbn [m00 m01 m02 m10 m11 m12 m20 m21 m22 v0 v1 v2
         madd mscale outer mdiag skew vscale add_to_diagonal addSkew];
    scalar_R; rewrite ?Q2R_half; lra.
Qed.

(** C5.  For every rigid transform [M = (R, p)], the angular part of
    [log6 M] is [w = log3 R] and its linear part is
    [alpha * p - 0.5 * (w x p) + (beta * (w . p)) * w], where [alpha] and
    [beta] take their Taylor values when [theta] is below the precision
    threshold and their closed forms otherwise. *)
Theorem log6_twist (M : SE3 R) :
  let theta := fst (log3 (rotation M)) in
  let w := snd (log3 (rotation M)) in
  let p := translation M in
  let t2 := theta * theta in
  let alpha := if Rlt_dec theta precision3
               then 1 - t2 / 12 - t2 * t2 / 720
               else theta * sin theta / (2 * (1 - cos theta)) in
  let beta := if Rlt_dec theta precision3
              then 1 / 12 + t2 / 720
              else 1 / t2 - sin theta / (2 * theta * (1 - cos theta)) in
  angular (log6 M) = w /\
  linear (log6 M)
  = vadd (vsub (vscale alpha p) (vscale 0.5 (cross w p)))
         (vscale (beta * dot w p) w).
Proof.
  intros theta w p t2 alpha beta.
  unfold log6, log6_impl_run.
  rewrite (surjective_pairing (log3 (rotation M))).
  fold theta w p. cbn [angular linear]. split; [reflexivity|].
  assert (Ha : log6_alpha theta = alpha).
  { unfold log6_alpha, if_then_else. scalar_R. unfold Rltb. subst alpha t2.
    destruct (Rlt_dec theta precision3); reflexivity. }
  assert (Hb : log6_beta theta = beta).
  { unfold log6_beta, if_then_else. scalar_R. unfold Rltb. subst beta t2.
    destruct (Rlt_dec theta precision3); reflexivity. }
  rewrite Ha, Hb. scalar_R. rewrite Q2R_half.
  replace (/ 2) with 0.5 by lra. reflexivity.
Qed.

Lemma Jlog6_C_closed_form (M : SE3 R) :
  let t := fst (log3 (rotation M)) in
  let w := snd (log3 (rotation M)) in
  let p := translation M in
  let inv_2_2ct := 1 / (2 * (1 - cos t)) in
  let beta := if Rlt_dec t precision3
              then 1 / 12 + t * t / 720
              else 1 / t * (1 / t) - sin t * (1 / t) * inv_2_2ct in
  let beta_dot_over_theta :=
    if Rlt_dec t precision3
    then 1 / 360
    else - 2 * (1 / t * (1 / t)) * (1 / t * (1 / t))
         + (1 + sin t * (1 / t)) * (1 / t * (1 / t)) * inv_2_2ct in
  let v3_tmp := vsub (vscale (beta_dot_over_theta * dot w p) w)
                     (vscale (t * t * beta_dot_over_theta + 2 * beta) p) in
  Jlog6_C_intermediate M
  = madd (madd (madd (outer v3_tmp w) (mscale beta (outer w p)))
               (mdiag (dot w p * beta)))
         (mscale 0.5 (skew p)).
Proof.
  intros t w p inv_2_2ct beta bdot v3_tmp.
  unfold Jlog6_C_intermediate.
  rewrite (surjective_pairing (log3 (rotation M))). fold t w p.
  assert (Hb : Jlog6_beta t = beta).
  { unfold Jlog6_beta, if_then_else. scalar_R. unfold Rltb.
    subst beta inv_2_2ct. destruct (Rlt_dec t precision3); reflexivity. }
  assert (Hd : Jlog6_beta_dot_over_theta t = bdot).
  { unfold Jlog6_beta_dot_over_theta, if_then_else. scalar_R. unfold Rltb.
    subst bdot inv_2_2ct. destruct (Rlt_dec t precision3); reflexivity. }
  rewrite Hb, Hd. scalar_R. fold v3_tmp.
  apply matrix3_eq;
    cbn [m00 m01 m02 m10 m11 m12 m20 m21 m22 v0 v1 v2
         madd mscale outer mdiag skew vscale add_to_diagonal addSkew];
    scalar_R; rewrite ?Q2R_half; lra.
Qed.

(** C7.  Whatever the matrix supplied by the caller holds, [Jlog6] leaves
    in it: [A = D = Jlog3 (theta, w)] with [(theta, w) = log3] of the
    rotation of [M]; [B = C' * A], where [C'] is the matrix assembled in the
    bottom-left block from the coefficients [beta] and [beta_dot / theta],
    the vectors [w] and [p], and the skew matrix of [p / 2]; and a
    bottom-left block [C] equal to zero, cleared after [B] is formed. *)
Theorem Jlog6_blocks (M : SE3 R) (value : Matrix6 R) :
  let t := fst (log3 (rotation M)) in
  let w := snd (log3 (rotation M)) in
  let p := translation M in
  let inv_2_2ct := 1 / (2 * (1 - cos t)) in
  let beta := if Rlt_dec t precision3
              then 1 / 12 + t * t / 720
              else 1 / t * (1 / t) - sin t * (1 / t) * inv_2_2ct in
  let beta_dot_over_theta :=
    if Rlt_dec t precision3
    then 1 / 360
    else - 2 * (1 / t * (1 / t)) * (1 / t * (1 / t))
         + (1 + sin t * (1 / t)) * (1 / t * (1 / t)) * inv_2_2ct in
  let v3_tmp := vsub (vscale (beta_dot_over_theta * dot w p) w)
                     (vscale (t * t * beta_dot_over_theta + 2 * beta) p) in
  let C' := madd (madd (madd (outer v3_tmp w) (mscale beta (outer w p)))
                       (mdiag (dot w p * beta)))
                 (mscale 0.5 (skew p)) in
  let Jlog := Jlog6_impl_run M value in
  topLeftCorner Jlog = Jlog3 t w /\
  bottomRightCorner Jlog = Jlog3 t w /\
  topRightCorner Jlog = mmul C' (Jlog3 t w) /\
  bottomLeftCorner Jlog = mzero.
Proof.
  intros t w p inv_2_2ct beta bdot v3_tmp C' Jlog.
  assert (HC : Jlog6_C_intermediate M = C') by apply Jlog6_C_closed_form.
  rewrite <- HC. clear HC. subst Jlog t w.
  unfold Jlog6_impl_run, Jlog6_C_intermediate.
  destruct (log3 (rotation M)) as [t w].
  cbn [fst snd set_A set_B set_C set_D topLeftCorner topRightCorner
       bottomLeftCorner bottomRightCorner].
  repeat split; reflexivity.
Qed.
End LogFormulas.

(** C6.  For every angle [theta] and vector [r], [Jlog3 (theta, r)] is
    [alpha * r * r^T + diag (beta) + 0.5 * skew (r)], with the Taylor values of
    [alpha] and [beta] when [theta] is below the precision threshold [p] and
    their closed forms otherwise.  Below the threshold no division by
    [theta^2] or by [1 - cos theta] reaches the result: it is made of real
    numbers for every real [theta], [theta = 0] included. *)
Theorem Jlog3_formula (p theta : R) (r : Vector3 R) :
  let st_1mct := sin theta / (1 - cos theta) in
  let alpha := if Rlt_dec theta p
               then 1 / 12 + theta * theta / 720
               else 1 / (theta * theta) - st_1mct / (2 * theta) in
  let beta := if Rlt_dec theta p
              then 0.5 * (2 - theta * theta / 6)
              else 0.5 * (theta * st_1mct) in
  Jlog3 (taylor := precision_R p) theta r
  = madd (madd (mscale alpha (outer r r)) (mdiag beta)) (mscale 0.5 (skew r))
  /\ (theta < p ->
      Jlog3 (taylor := precision_X p) (XFin theta) (XVec r)
      = XMat (Jlog3 (taylor := precision_R p) theta r)).
Proof.
  intros st_1mct alpha beta. split.
  - apply (@Jlog3_closed_form (precision_R p)).
  - intros Hlt. unfold Jlog3, Jlog3_impl_run, if_then_else.
    cbn [precision3 precision_R precision_X]. scalar_X. scalar_R.
    destruct (Rltb_spec theta p); [|contradiction].
    rewrite !(xdiv_fin _ 12), !(xdiv_fin _ 720), !(xdiv_fin _ 6) by lra.
    scalar_X. unfold XMat, XVec, addSkew, add_to_diagonal, outer, vscale.
    coefficients. scalar_X. scalar_R. reflexivity.
Qed.

Lemma Jlog3_formula_witness :
  Jlog3 (taylor := precision_X (/ 8192)) (XFin 0) (XVec UnitX)
  = XMat (Jlog3 (taylor := precision_R (/ 8192)) 0 UnitX).
Proof.
  apply (proj2 (Jlog3_formula (/ 8192) 0 UnitX)). lra.
Defined.

(** On a pure translation along x the top-right block is not zero: [B] is
    formed from the block [C] before [C] is cleared. *)
Lemma Jlog6_pure_translation (value : Matrix6 R) :
  let Jlog := Jlog6_impl_run (taylor := precision3_double)
                (mkSE3 Identity3 UnitX) value in
  topRightCorner Jlog = mscale 0.5 (skew UnitX) /\
  bottomLeftCorner Jlog = mzero.
Proof.
  unfold Jlog6_impl_run. cbn [rotation translation].
  rewrite log3_Identity3.
  cbn [set_A set_B set_C set_D topLeftCorner topRightCorner
       bottomLeftCorner bottomRightCorner].
  split; [|reflexivity].
  unfold Jlog3, Jlog3_impl_run, Jlog6_beta, Jlog6_beta_dot_over_theta,
    if_then_else.
  cbn [precision3 precision3_double precision_R]. scalar_R.
  destruct (Rltb_spec 0 (/ 8192)); [|lra].
  unfold dot, Vector3_Zero, UnitX.
  apply matrix3_eq;
    cbn [m00 m01 m02 m10 m11 m12 m20 m21 m22 v0 v1 v2 UnitX Vector3_Zero
         mmul madd mscale outer mdiag skew vscale vsub dot add_to_diagonal
         addSkew];
    scalar_R; rewrite ?Q2R_half; lra.
Qed.

(** ** Extraction of a joint Jacobian *)

Section CopyColumns.
Variables (f : Motion R -> Motion R) (Jdata : list (Motion R)).

Lemma copy_columns_length (cs : list nat) (Jout : list (Motion R)) :
  length (foldl (copy_column f Jdata) Jout cs) = length Jout.
Proof.
  revert Jout. induction cs as [|a cs IH]; intros Jout; [reflexivity|].
  cbn [foldl]. rewrite IH. unfold copy_column.
  destruct (Jdata !! a); [apply length_insert|reflexivity].
Qed.

Lemma copy_columns_other (cs : list nat) (Jout : list (Motion R)) (c : nat) :
  ~ In c cs -> foldl (copy_column f Jdata) Jout cs !! c = Jout !! c.
Proof.
  revert Jout. induction cs as [|a cs IH]; intros Jout Hc; [reflexivity|].
  cbn [foldl]. rewrite IH by (intros Hin; apply Hc; right; exact Hin).
  unfold copy_column. destruct (Jdata !! a); [|reflexivity].
  apply list_lookup_insert_ne. intros ->. apply Hc. left. reflexivity.
Qed.

Lemma copy_columns_written (cs : list nat) (Jout : list (Motion R))
    (c : nat) (v_in : Motion R) :
  In c cs -> Jdata !! c = Some v_in -> (c < length Jout)%nat ->
  foldl (copy_column f Jdata) Jout cs !! c = Some (f v_in).
Proof.
  revert Jout.
  induction cs as [|a cs IH]; intros Jout Hin Hv Hlen; [destruct Hin|].
  cbn [foldl].
  destruct (in_dec Nat.eq_dec c cs) as [Hcs|Hcs].
  - apply IH; [assumption|assumption|].
    unfold copy_column.
    destruct (Jdata !! a); [rewrite length_insert|]; exact Hlen.
  - destruct Hin as [->|Hin]; [|contradiction].
    rewrite copy_columns_other by exact Hcs.
    unfold copy_column. rewrite Hv. apply list_lookup_insert_eq. exact Hlen.
Qed.
End CopyColumns.

Lemma in_ancestor_columns (model : Model) (joint_id c : nat) :
  In c (concat (map (joint_columns model) (ancestors model joint_id)))
  <-> exists i, In i (ancestors model joint_id) /\ In c (joint_columns model i).
Proof.
  rewrite in_concat. split.
  - intros (cs & Hcs & Hc). apply in_map_iff in Hcs as (i & <- & Hi). eauto.
  - intros (i & Hi & Hc). exists (joint_columns model i). split; [|exact Hc].
    apply in_map. exact Hi.
Qed.

(** In a tree, where the parent of a joint has a smaller index, the walk to
    the root ends within [j] steps: more fuel does not change the chain. *)
Lemma ancestors_from_fuel (parents : list nat) (fuel j : nat) :
  (forall i p, parents !! i = Some p -> (0 < i)%nat -> (p < i)%nat) ->
  (j <= fuel)%nat ->
  ancestors_from (S fuel) parents j = ancestors_from fuel parents j.
Proof.
  intros Htree. revert j.
  induction fuel as [|fuel IH]; intros j Hj.
  - assert (j = 0%nat) as -> by lia. reflexivity.
  - change (ancestors_from (S (S fuel)) parents j)
      with (if (j =? 0)%nat then []
            else j :: ancestors_from (S fuel) parents (default 0%nat (parents !! j))).
    change (ancestors_from (S fuel) parents j)
      with (if (j =? 0)%nat then []
            else j :: ancestors_from fuel parents (default 0%nat (parents !! j))).
    destruct (Nat.eqb_spec j 0) as [|Hj0]; [reflexivity|].
    f_equal. apply IH.
    destruct (parents !! j) as [p|] eqn:Hp; simpl; [|lia].
    specialize (Htree j p Hp). lia.
Qed.

(** The columns of the chain are the ones that are written. *)
Lemma getJointJacobian_writes_ancestor_columns
    (model : Model) (data : Data) (joint_id : nat)
    (reference_frame : ReferenceFrame) (Jout : list (Motion R))
    (i c : nat) (v_in : Motion R) :
  In i (ancestors model joint_id) -> In c (joint_columns model i) ->
  J data !! c = Some v_in -> (c < length Jout)%nat ->
  getJointJacobian model data joint_id reference_frame Jout !! c
  = Some (reexpress reference_frame
            (default SE3_Identity (oMi data !! joint_id)) v_in).
Proof.
  intros Hi Hc Hv Hlen. unfold getJointJacobian.
  apply copy_columns_written; [|exact Hv|exact Hlen].
  apply in_ancestor_columns. eauto.
Qed.

(** C8.  For every model, data, joint and reference frame, a column [c] that
    belongs to no joint of the chain from [joint_id] to the root is left by
    [getJointJacobian] as the caller supplied it.  Hence it is zero after the
    call when it was zero before, and it is zero in the matrix returned by
    the overload that starts from [Zero(6, model.nv)]. *)
Theorem getJointJacobian_leaves_other_columns
    (model : Model) (data : Data) (joint_id : nat)
    (reference_frame : ReferenceFrame) (Jout : list (Motion R)) (c : nat) :
  (forall i, In i (ancestors model joint_id) -> ~ In c (joint_columns model i)) ->
  getJointJacobian model data joint_id reference_frame Jout !! c = Jout !! c
  /\ (Jout !! c = Some Motion_Zero ->
      getJointJacobian model data joint_id reference_frame Jout !! c
      = Some Motion_Zero)
  /\ ((c < nv model)%nat ->
      getJointJacobian_value model data joint_id reference_frame !! c
      = Some Motion_Zero).
Proof.
  intros Hout.
  assert (Hc : ~ In c (concat (map (joint_columns model)
                                   (ancestors model joint_id)))).
  { rewrite in_ancestor_columns. intros (i & Hi & Hci). exact (Hout i Hi Hci). }
  assert (Hsame : forall Jout' : list (Motion R),
             getJointJacobian model data joint_id reference_frame Jout' !! c
             = Jout' !! c).
  { intros Jout'. unfold getJointJacobian. apply copy_columns_other. exact Hc. }
  split; [apply Hsame|]. split.
  - intros Hzero. rewrite Hsame. exact Hzero.
  - intros Hlt. unfold getJointJacobian_value. rewrite Hsame.
    apply lookup_replicate_2. exact Hlt.
Qed.

Lemma ancestors_PXRX_1 : ancestors modelPXRX 1 = [1%nat].
Proof. reflexivity. Qed.

Lemma joint_columns_PXRX_1 : joint_columns modelPXRX 1 = [0%nat].
Proof. reflexivity. Qed.

Lemma getJointJacobian_leaves_other_columns_witness :
  getJointJacobian modelPXRX dataPXRX 1 WORLD
    [mkMotion UnitX UnitY; mkMotion UnitY UnitZ] !! 1%nat
  = Some (mkMotion UnitY UnitZ).
Proof.
  apply (proj1 (getJointJacobian_leaves_other_columns modelPXRX dataPXRX 1 WORLD
                  [mkMotion UnitX UnitY; mkMotion UnitY UnitZ] 1
                  ltac:(rewrite ancestors_PXRX_1; intros i [<-|[]];
                        rewrite joint_columns_PXRX_1;
                        intros [H|[]]; discriminate))).
Defined.

(** ** The helical joint against the prismatic-revolute chain *)






(** ** The Python bindings of [std::vector] *)

Lemma to_long_id (z : Z) : (long_min <= z <= long_max)%Z -> to_long z = z.
Proof.
  unfold long_min, long_max, to_long. intros Hz.
  rewrite Z.mod_small by lia. lia.
Qed.

Lemma long_value_id (z : Z) :
  (long_min <= z <= long_max)%Z -> long_value z = Returns z.
Proof.
  intros Hz. unfold long_value.
  destruct (Z.leb_spec long_min z); [|lia].
  destruct (Z.leb_spec z long_max); [|lia]. reflexivity.
Qed.

Lemma convert_index_value {A : Type} (container : list A) (i : Z) :
  let n := Z.of_nat (length container) in
  (n <= long_max)%Z -> (- n <= i < n)%Z ->
  convert_index container (PyLong i)
  = Returns (Z.to_nat (if (i <? 0)%Z then i + n else i)).
Proof.
  intros n Hn Hi. unfold convert_index, extract_long.
  rewrite long_value_id by (unfold long_min, long_max in *; lia).
  cbv zeta. fold n.
  assert (Hn0 : (0 <= n)%Z) by (subst n; lia).
  rewrite (to_long_id n) by (unfold long_min, long_max in *; lia).
  destruct (Z.ltb_spec i 0) as [Hneg|Hpos].
  - rewrite to_long_id by (unfold long_min, long_max in *; lia).
    destruct (Z.leb_spec n (i + n)); [lia|].
    destruct (Z.ltb_spec (i + n) 0); [lia|]. reflexivity.
  - destruct (Z.leb_spec n i); [lia|].
    destruct (Z.ltb_spec i 0); [lia|]. reflexivity.
Qed.

(** X1.  For a container of [n] elements and an [int] index [i],
    [convert_index] returns when [-n <= i < n], and then returns [i mod n]:
    [i] itself when it is not negative, [i + n] otherwise.  Every other
    [int] that fits the type [long] raises [IndexError], and so does every
    such [int] on an empty container; an [int] that does not fit the type
    [long] raises [OverflowError]. *)
Theorem convert_index_in_range {A : Type} (container : list A) (i : Z) :
  let n := Z.of_nat (length container) in
  (n <= long_max)%Z ->
  convert_index container (PyLong i)
  = if (- n <=? i)%Z && (i <? n)%Z
    then Returns (Z.to_nat (i mod n))
    else if (long_min <=? i)%Z && (i <=? long_max)%Z
         then Raises PyExc_IndexError
         else Raises PyExc_OverflowError.
Proof.
  intros n Hn. unfold convert_index, extract_long, long_value.
  assert (Hn0 : (0 <= n)%Z) by (subst n; lia).
  destruct (Z.leb_spec long_min i) as [Hmin|Hmin]; cbn [andb].
  2:{ destruct (Z.leb_spec (- n) i);
        [unfold long_min, long_max in *; lia|reflexivity]. }
  destruct (Z.leb_spec i long_max) as [Hmax|Hmax].
  2:{ destruct (Z.ltb_spec i n); [lia|]. rewrite andb_false_r. reflexivity. }
  cbv zeta. fold n.
  rewrite (to_long_id n) by (unfold long_min, long_max in *; lia).
  destruct (Z.ltb_spec i 0) as [Hneg|Hpos].
  - rewrite to_long_id by (unfold long_min, long_max in *; lia).
    destruct (Z.leb_spec (- n) i) as [Hlo|Hlo]; cbn [andb].
    + destruct (Z.ltb_spec i n); [|lia].
      destruct (Z.leb_spec n (i + n)); [lia|].
      destruct (Z.ltb_spec (i + n) 0); [lia|]. cbn [orb].
      do 2 f_equal. apply Z.mod_unique with (q := (-1)%Z); lia.
    + destruct (Z.leb_spec n (i + n)); [lia|].
      destruct (Z.ltb_spec (i + n) 0); [reflexivity|lia].
  - destruct (Z.leb_spec (- n) i); [|lia]. cbn [andb].
    destruct (Z.ltb_spec i n) as [Hlt|Hge].
    + destruct (Z.leb_spec n i); [lia|]. cbn [orb].
      destruct (Z.ltb_spec i 0); [lia|].
      rewrite Z.mod_small by lia. reflexivity.
    + destruct (Z.leb_spec n i); [reflexivity|lia].
Qed.

Lemma convert_index_in_range_witness :
  convert_index [10%Z; 20%Z; 30%Z] (PyLong (-1)) = Returns 2%nat
  /\ convert_index [10%Z; 20%Z; 30%Z] (PyLong 3) = Raises PyExc_IndexError
  /\ convert_index [10%Z; 20%Z; 30%Z] (PyLong (2 ^ 63))
     = Raises PyExc_OverflowError.
Proof.
  split; [|split].
  - rewrite (convert_index_in_range [10%Z; 20%Z; 30%Z] (-1));
      [reflexivity | unfold long_max; simpl; lia].
  - rewrite (convert_index_in_range [10%Z; 20%Z; 30%Z] 3);
      [reflexivity | unfold long_max; simpl; lia].
  - rewrite (convert_index_in_range [10%Z; 20%Z; 30%Z] (2 ^ 63));
      [reflexivity | unfold long_max; simpl; lia].
Defined.

Lemma convert_index_returns {A : Type} (container : list A) (i_ : PyObject)
    (idx : nat) :
  (Z.of_nat (length container) <= long_max)%Z ->
  convert_index container i_ = Returns idx -> (idx < length container)%nat.
Proof.
  intros Hn. unfold convert_index.
  destruct (extract_long i_) as [i|]; [|discriminate].
  unfold long_value. destruct (_ && _); [|discriminate]. cbv zeta.
  rewrite (to_long_id (Z.of_nat (length container)))
    by (unfold long_min, long_max in *; lia).
  set (index := if (i <? 0)%Z then _ else _).
  destruct (Z.leb_spec (Z.of_nat (length container)) index); [discriminate|].
  destruct (Z.ltb_spec index 0); [discriminate|]. cbn [orb].
  intros [= <-]. lia.
Qed.

Lemma convert_index_raises {A : Type} (container : list A) (i_ : PyObject) :
  convert_index container i_ <> Raises PyExc_KeyError.
Proof.
  unfold convert_index, long_value.
  destruct (extract_long i_); [|discriminate].
  destruct (_ && _); [|discriminate].
  cbv zeta. destruct (_ || _); discriminate.
Qed.

(** X2.  [base_get_item] never raises [KeyError]: the index that
    [convert_index] returns is below the size, so the iterator advanced from
    [begin()] is never [end()].  An index that is not an [int] raises
    [TypeError], whatever the container. *)
Theorem base_get_item_never_KeyError {A : Type} (container : list A)
    (i_ : PyObject) :
  (Z.of_nat (length container) <= long_max)%Z ->
  base_get_item container i_ <> Raises PyExc_KeyError
  /\ (extract_long i_ = None ->
      base_get_item container i_ = Raises PyExc_TypeError).
Proof.
  intros Hn. split.
  - unfold base_get_item.
    destruct (convert_index container i_) as [idx|e|] eqn:Hidx.
    + pose proof (convert_index_returns _ _ _ Hn Hidx) as Hlt.
      destruct (container !! idx) eqn:Hget; [discriminate|].
      apply lookup_ge_None in Hget. lia.
    + intros [= ->]. exact (convert_index_raises _ _ Hidx).
    + discriminate.
  - intros Hnone. unfold base_get_item, convert_index. rewrite Hnone.
    reflexivity.
Qed.

Lemma base_get_item_never_KeyError_witness :
  base_get_item [10%Z; 20%Z; 30%Z] (PyLong 3) <> Raises PyExc_KeyError.
Proof.
  apply (proj1 (base_get_item_never_KeyError [10%Z; 20%Z; 30%Z] (PyLong 3)
                  ltac:(unfold long_max; simpl; lia))).
Defined.

(** X3.  Indexing follows Python: on a container of [n] elements the index
    [i] with [0 <= i < n] returns the element of rank [i], and the negative
    index [i - n] returns the same element. *)
Theorem base_get_item_negative_index {A : Type} (container : list A) (i : Z) :
  let n := Z.of_nat (length container) in
  (n <= long_max)%Z -> (0 <= i < n)%Z ->
  exists elt, container !! Z.to_nat i = Some elt
              /\ base_get_item container (PyLong i) = Returns elt
              /\ base_get_item container (PyLong (i - n)) = Returns elt.
Proof.
  intros n Hn Hi.
  destruct (lookup_lt_is_Some_2 container (Z.to_nat i)) as [elt Helt];
    [subst n; lia|].
  exists elt. split; [exact Helt|].
  unfold base_get_item.
  rewrite !convert_index_value by (fold n; lia). fold n.
  destruct (Z.ltb_spec i 0); [lia|].
  destruct (Z.ltb_spec (i - n) 0); [|lia].
  replace (i - n + n)%Z with i by lia.
  rewrite Helt. split; reflexivity.
Qed.

Lemma base_get_item_negative_index_witness :
  exists elt, [10%Z; 20%Z; 30%Z] !! Z.to_nat 2 = Some elt
              /\ base_get_item [10%Z; 20%Z; 30%Z] (PyLong 2) = Returns elt
              /\ base_get_item [10%Z; 20%Z; 30%Z] (PyLong (-1)) = Returns elt.
Proof.
  apply (base_get_item_negative_index [10%Z; 20%Z; 30%Z] 2);
    [unfold long_max; simpl; lia | simpl; lia].
Defined.

Section StdContainerFromPythonListFacts.
Context {T : Type} (extract : PyObject -> option T).

Lemma all_elements_check_Forall (bp_list : list PyObject) :
  all_elements_check extract bp_list = true
  <-> Forall (fun elt => is_Some (extract elt)) bp_list.
Proof.
  induction bp_list as [|elt bp_list IH]; cbn [all_elements_check].
  - split; [constructor|reflexivity].
  - unfold check. rewrite Forall_cons. destruct (extract elt) as [x|].
    + rewrite IH. split; [intros H; split; [eauto|exact H]|intros [_ H]; exact H].
    + split; [discriminate|]. intros [[x Hx] _]. discriminate.
Qed.

(** X4.  The check made when the argument is converted
    ([from_python_list]) and the one registered with the converter
    ([convertible]) accept the same objects: the lists all of whose elements
    convert to [T], the empty list among them. *)
Theorem convertible_iff_from_python_list (obj_ptr : PyObject) :
  convertible extract obj_ptr
  = (if from_python_list extract obj_ptr then Some obj_ptr else None)
  /\ (from_python_list extract obj_ptr = true
      <-> exists bp_list,
            obj_ptr = PyList bp_list
            /\ Forall (fun elt => is_Some (extract elt)) bp_list).
Proof.
  split.
  - destruct obj_ptr; reflexivity.
  - destruct obj_ptr as [| |bp_list|items|]; cbn [from_python_list];
      try (split; [discriminate|intros (l & [=] & _)]).
    rewrite all_elements_check_Forall. split.
    + intros H. exists bp_list. split; [reflexivity|exact H].
    + intros (l & [= ->] & H). exact H.
Qed.

Lemma stl_input_Forall2 (bp_list : list PyObject) (vec : list T) :
  stl_input extract bp_list = Returns vec
  <-> Forall2 (fun elt x => extract elt = Some x) bp_list vec.
Proof.
  revert vec. induction bp_list as [|elt bp_list IH]; intros vec;
    cbn [stl_input].
  - split.
    + intros [= <-]. constructor.
    + intros H. inversion H. reflexivity.
  - destruct (extract elt) as [x|] eqn:Hx.
    + destruct (stl_input extract bp_list) as [vec'|e|].
      * split.
        -- intros [= <-]. constructor; [exact Hx|]. apply IH. reflexivity.
        -- intros H. inversion H as [|? y ? vec'' Hy Hrest]; subst.
           apply IH in Hrest. injection Hrest as ->. congruence.
      * split; [discriminate|].
        intros H. inversion H as [|? y ? vec'' Hy Hrest]; subst.
        apply IH in Hrest. discriminate.
      * split; [discriminate|].
        intros H. inversion H as [|? y ? vec'' Hy Hrest]; subst.
        apply IH in Hrest. discriminate.
    + split; [discriminate|].
      intros H. inversion H; subst. congruence.
Qed.

Lemma stl_input_returns (bp_list : list PyObject) :
  all_elements_check extract bp_list = true
  <-> exists vec, stl_input extract bp_list = Returns vec.
Proof.
  rewrite all_elements_check_Forall.
  induction bp_list as [|elt bp_list IH]; cbn [stl_input].
  - split; [eauto|constructor].
  - rewrite Forall_cons. destruct (extract elt) as [x|].
    + destruct (stl_input extract bp_list) as [vec'|e|].
      * split; [eauto|]. intros _. split; [eauto|]. apply IH. eauto.
      * split; [intros [_ H]; apply IH in H as [vec [=]]|intros [vec [=]]].
      * split; [intros [_ H]; apply IH in H as [vec [=]]|intros [vec [=]]].
    + split; [intros [[x [=]] _]|intros [vec [=]]].
Qed.

Lemma from_python_list_construct (bp_list : list PyObject) :
  from_python_list extract (PyList bp_list) = true
  <-> exists vec, construct extract (PyList bp_list) = Returns vec.
Proof. apply stl_input_returns. Qed.

End StdContainerFromPythonListFacts.

Section ReferenceArgFromPythonFacts.
Context {T : Type}.

Lemma stl_input_instances (heap : list T) (bp_list : list PyObject)
    (vec : list T) :
  stl_input (extract_instance heap) bp_list = Returns vec ->
  forall k x, vec !! k = Some x ->
  exists a, bp_list !! k = Some (PyInstance a) /\ heap !! a = Some x.
Proof.
  intros Hvec k x Hk. apply stl_input_Forall2 in Hvec.
  destruct (Forall2_lookup_r _ _ _ _ _ Hvec Hk) as (elt & Helt & Hext).
  destruct elt as [| | | |a]; try discriminate. eauto.
Qed.

Lemma In_take {A : Type} (a : A) (n : nat) (l : list A) :
  In a (take n l) -> In a l.
Proof.
  rewrite <- !list_elem_of_In. intros Ha. exact (subseteq_take n l a Ha).
Qed.

(** Copying back the values that were read changes nothing. *)
Lemma copy_back_from_same (heap : list T) (bp_list : list PyObject)
    (i : nat) (rest : list T) :
  (forall j x, rest !! j = Some x ->
     exists a, bp_list !! (i + j)%nat = Some (PyInstance a)
               /\ heap !! a = Some x) ->
  copy_back_from i rest bp_list heap = Returns heap.
Proof.
  revert i. induction rest as [|x rest IH]; intros i Hrest; [reflexivity|].
  cbn [copy_back_from].
  destruct (Hrest 0%nat x eq_refl) as (a & Ha & Hx).
  rewrite Nat.add_0_r in Ha. rewrite Ha.
  pose proof (lookup_lt_Some _ _ _ Hx) as Hlt.
  destruct (Nat.ltb_spec a (length heap)); [|lia].
  rewrite (list_insert_id _ _ _ Hx). apply IH.
  intros j y Hj. replace (S i + j)%nat with (i + S j)%nat by lia.
  apply Hrest. exact Hj.
Qed.

(** The effect of the copy on a list of instances at valid addresses. *)
Lemma copy_back_from_instances (addrs : list nat) (i : nat) (rest : list T)
    (heap : list T) :
  (forall a, In a addrs -> (a < length heap)%nat) ->
  (i + length rest <= length addrs)%nat ->
  exists heap',
    copy_back_from i rest (PyInstance <$> addrs) heap = Returns heap'
    /\ length heap' = length heap
    /\ (forall a, ~ In a (take (length rest) (drop i addrs)) ->
          heap' !! a = heap !! a)
    /\ (NoDup (drop i addrs) ->
        forall j a, addrs !! (i + j)%nat = Some a -> (j < length rest)%nat ->
          heap' !! a = rest !! j).
Proof.
  intros Hvalid. revert i heap Hvalid.
  induction rest as [|x rest IH]; intros i heap Hvalid Hlen.
  - exists heap. cbn [copy_back_from length].
    split; [reflexivity|]. split; [reflexivity|].
    split; [intros; reflexivity|]. intros _ j a _ Hj. lia.
  - cbn [length] in Hlen. cbn [copy_back_from].
    destruct (lookup_lt_is_Some_2 addrs i) as [a Ha]; [lia|].
    rewrite list_lookup_fmap, Ha. cbn [fmap option_fmap option_map].
    assert (Hin : In a addrs)
      by (apply list_elem_of_In; eapply list_elem_of_lookup_2; exact Ha).
    pose proof (Hvalid a Hin) as Hlt.
    destruct (Nat.ltb_spec a (length heap)); [|lia].
    destruct (IH (S i) (<[a := x]> heap)) as (heap' & Hrun & Hlen' & Hout & Hin');
      [intros b Hb; rewrite length_insert; apply Hvalid; exact Hb | lia |].
    exists heap'. rewrite length_insert in Hlen'.
    assert (Hdrop : drop i addrs = a :: drop (S i) addrs)
      by (apply drop_S; exact Ha).
    split; [exact Hrun|]. split; [exact Hlen'|]. split.
    + intros b Hb. cbn [length] in Hb. rewrite Hdrop in Hb.
      cbn [take] in Hb. rewrite Hout by (intros Hb'; apply Hb; right; exact Hb').
      apply list_lookup_insert_ne. intros ->. apply Hb. left. reflexivity.
    + intros Hnodup j b Hb Hj. rewrite Hdrop in Hnodup.
      apply NoDup_cons in Hnodup as [Hnotin Hnodup].
      destruct j as [|j].
      * rewrite Nat.add_0_r in Hb. assert (b = a) as -> by congruence.
        cbn [lookup list_lookup]. rewrite Hout.
        -- apply list_lookup_insert_eq. exact Hlt.
        -- intros Hmem. apply Hnotin. apply list_elem_of_In.
           eapply In_take. exact Hmem.
      * cbn [lookup list_lookup].
        apply Hin'; [exact Hnodup| |cbn [length] in Hj; lia].
        replace (S i + j)%nat with (i + S j)%nat by lia. exact Hb.
Qed.

(** X6.  When the function called on the converted vector leaves it as it
    is, the conversion of a Python list to a vector reference and back
    changes no wrapped object, whether or not the list holds the same
    instance several times. *)
Theorem call_with_list_identity (bp_list : list PyObject) (heap : list T) :
  from_python_list (extract_instance heap) (PyList bp_list) = true ->
  call_with_list (fun vec => vec) (PyList bp_list) heap = Returns heap.
Proof.
  intros Hconv. unfold call_with_list. rewrite Hconv.
  apply (from_python_list_construct (extract_instance heap)) in Hconv
    as [vec Hvec].
  rewrite Hvec. unfold destructor, copy_back.
  rewrite copy_back_from_same; [reflexivity|].
  intros j x Hj. cbn [construct bp_list_of] in Hvec.
  exact (stl_input_instances heap bp_list vec Hvec j x Hj).
Qed.

(** X7.  For a list of distinct instances and a function that keeps the size
    of the vector, the call returns and the list then converts to the vector
    the function left: every change made to an element is visible through
    the list, and no other wrapped object changes. *)
Theorem call_with_list_copies_back (f : list T -> list T) (addrs : list nat)
    (heap vec : list T) :
  NoDup addrs ->
  construct (extract_instance heap) (PyList (PyInstance <$> addrs)) = Returns vec ->
  length (f vec) = length vec ->
  exists heap',
    call_with_list f (PyList (PyInstance <$> addrs)) heap = Returns heap'
    /\ construct (extract_instance heap') (PyList (PyInstance <$> addrs))
       = Returns (f vec)
    /\ (forall a, ~ In a addrs -> heap' !! a = heap !! a).
Proof.
  intros Hnodup Hvec Hlen.
  assert (Hconv : from_python_list (extract_instance heap)
                    (PyList (PyInstance <$> addrs)) = true)
    by (apply (from_python_list_construct (extract_instance heap)); eauto).
  pose proof Hvec as Hvec2. cbn [construct bp_list_of] in Hvec2.
  pose proof (proj1 (stl_input_Forall2 _ _ _) Hvec2) as Hall.
  pose proof (Forall2_length _ _ _ Hall) as Hlen2.
  rewrite length_fmap in Hlen2.
  assert (Hvalid : forall a, In a addrs -> (a < length heap)%nat).
  { intros a Ha. apply list_elem_of_In, list_elem_of_lookup_1 in Ha as [k Hk].
    assert (Hk' : (PyInstance <$> addrs) !! k = Some (PyInstance a))
      by (rewrite list_lookup_fmap, Hk; reflexivity).
    destruct (Forall2_lookup_l _ _ _ _ _ Hall Hk') as (x & _ & Hx).
    cbn [extract_instance] in Hx. eapply lookup_lt_Some. exact Hx. }
  destruct (copy_back_from_instances addrs 0 (f vec) heap Hvalid)
    as (heap' & Hrun & Hlen' & Hout & Hin); [lia|].
  exists heap'. unfold call_with_list. rewrite Hconv, Hvec.
  unfold destructor, copy_back. rewrite Hrun.
  split; [reflexivity|]. split.
  - cbn [construct bp_list_of]. apply stl_input_Forall2.
    apply Forall2_same_length_lookup_2; [rewrite length_fmap; lia|].
    intros k elt x Helt Hx. rewrite list_lookup_fmap in Helt.
    destruct (addrs !! k) as [a|] eqn:Ha; [|discriminate].
    injection Helt as <-. cbn [extract_instance].
    rewrite (Hin Hnodup k a Ha) by (eapply lookup_lt_Some; exact Hx).
    exact Hx.
  - intros a Ha. apply Hout. intros Hmem. apply Ha.
    eapply In_take. rewrite drop_0 in Hmem. exact Hmem.
Qed.

Lemma copy_back_from_grown (addrs : list nat) (i : nat) (rest : list T)
    (heap : list T) :
  (forall a, In a addrs -> (a < length heap)%nat) ->
  (i <= length addrs)%nat -> (length addrs < i + length rest)%nat ->
  copy_back_from i rest (PyInstance <$> addrs) heap = Raises PyExc_IndexError.
Proof.
  intros Hvalid. revert i heap Hvalid.
  induction rest as [|x rest IH]; intros i heap Hvalid Hi Hlen;
    cbn [length] in Hlen; [lia|].
  cbn [copy_back_from]. rewrite list_lookup_fmap.
  destruct (addrs !! i) as [a|] eqn:Ha; cbn [fmap option_fmap option_map].
  - assert (Hin : In a addrs)
      by (apply list_elem_of_In; eapply list_elem_of_lookup_2; exact Ha).
    pose proof (lookup_lt_Some _ _ _ Ha).
    pose proof (Hvalid a Hin).
    destruct (Nat.ltb_spec a (length heap)); [|lia].
    apply IH; [|lia|lia].
    intros b Hb. rewrite length_insert. apply Hvalid. exact Hb.
  - reflexivity.
Qed.

(** X8.  When the function called makes the vector longer than the list,
    the program terminates: the loop of the destructor runs over the size of
    the vector and indexes the list past its end, and the [IndexError] this
    raises cannot leave the destructor. *)
Theorem call_with_list_grown (f : list T -> list T) (addrs : list nat)
    (heap vec : list T) :
  construct (extract_instance heap) (PyList (PyInstance <$> addrs)) = Returns vec ->
  (length vec < length (f vec))%nat ->
  copy_back (f vec) (PyInstance <$> addrs) heap = Raises PyExc_IndexError
  /\ call_with_list f (PyList (PyInstance <$> addrs)) heap = Terminates.
Proof.
  intros Hvec Hlen.
  assert (Hconv : from_python_list (extract_instance heap)
                    (PyList (PyInstance <$> addrs)) = true)
    by (apply (from_python_list_construct (extract_instance heap)); eauto).
  pose proof Hvec as Hvec2. cbn [construct bp_list_of] in Hvec2.
  pose proof (proj1 (stl_input_Forall2 _ _ _) Hvec2) as Hall.
  pose proof (Forall2_length _ _ _ Hall) as Hlen2.
  rewrite length_fmap in Hlen2.
  assert (Hraise : copy_back (f vec) (PyInstance <$> addrs) heap
                   = Raises PyExc_IndexError).
  { unfold copy_back. apply copy_back_from_grown; [|lia|lia].
    intros a Ha. apply list_elem_of_In, list_elem_of_lookup_1 in Ha as [k Hk].
    assert (Hk' : (PyInstance <$> addrs) !! k = Some (PyInstance a))
      by (rewrite list_lookup_fmap, Hk; reflexivity).
    destruct (Forall2_lookup_l _ _ _ _ _ Hall Hk') as (x & _ & Hx).
    cbn [extract_instance] in Hx. eapply lookup_lt_Some. exact Hx. }
  split; [exact Hraise|].
  unfold call_with_list. rewrite Hconv, Hvec. unfold destructor.
  rewrite Hraise. reflexivity.
Qed.

End ReferenceArgFromPythonFacts.

Lemma call_with_list_identity_witness :
  call_with_list (fun vec => vec)
    (PyList [PyInstance 1; PyInstance 0; PyInstance 1]) [5%Z; 7%Z]
  = Returns [5%Z; 7%Z].
Proof.
  apply (call_with_list_identity
           [PyInstance 1; PyInstance 0; PyInstance 1] [5%Z; 7%Z]).
  reflexivity.
Defined.

Lemma call_with_list_copies_back_witness :
  exists heap',
    call_with_list (map (Z.add 1)) (PyList (PyInstance <$> [1%nat; 0%nat]))
      [5%Z; 7%Z] = Returns heap'
    /\ construct (extract_instance heap') (PyList (PyInstance <$> [1%nat; 0%nat]))
       = Returns (map (Z.add 1) [7%Z; 5%Z])
    /\ (forall a, ~ In a [1%nat; 0%nat] -> heap' !! a = [5%Z; 7%Z] !! a).
Proof.
  apply (call_with_list_copies_back (map (Z.add 1)) [1%nat; 0%nat]
           [5%Z; 7%Z] [7%Z; 5%Z]).
  - repeat constructor; cbn; intros H; inversion H; subst;
      match goal with H' : _ ∈ _ |- _ => inversion H' end.
  - reflexivity.
  - reflexivity.
Defined.

Lemma call_with_list_grown_witness :
  copy_back ([7%Z; 5%Z] ++ [0%Z]) (PyInstance <$> [1%nat; 0%nat]) [5%Z; 7%Z]
  = Raises PyExc_IndexError
  /\ call_with_list (fun vec => vec ++ [0%Z])
       (PyList (PyInstance <$> [1%nat; 0%nat])) [5%Z; 7%Z]
     = Terminates.
Proof.
  apply (call_with_list_grown (fun vec => vec ++ [0%Z]) [1%nat; 0%nat]
           [5%Z; 7%Z] [7%Z; 5%Z]); [reflexivity|simpl; lia].
Defined.

(** ** Further properties of the logarithm maps *)

Lemma acos_m1 : acos (-1) = PI.
Proof. replace (-1) with (Ropp 1) by lra. rewrite acos_opp, acos_1. lra. Qed.

Lemma cos_lt_1 (x : R) : 0 < x -> x <= PI -> cos x < 1.
Proof.
  intros H0 Hpi. rewrite <- cos_0.
  pose proof PI_gt_3. apply cos_decreasing_1; lra.
Qed.

Lemma acos_decreasing (x y : R) :
  -1 <= x -> x <= y -> y <= 1 -> acos y <= acos x.
Proof.
  intros Hx Hxy Hy.
  destruct (Rle_dec (acos y) (acos x)) as [|Hn]; [assumption|exfalso].
  apply Rnot_le_lt in Hn.
  pose proof (acos_bound x) as [? ?]. pose proof (acos_bound y) as [? ?].
  pose proof (cos_decreasing_1 (acos x) (acos y)) as Hcos.
  rewrite !cos_acos in Hcos by lra. lra.
Qed.

Section Log3More.
Context {T : TaylorSeriesExpansion R}.

(** X9.  The three-way selection of the angle is the arc cosine of the
    cosine taken from the clamped trace: [theta] has no jump where the
    branches meet, at the traces [3] and [-1]. *)
Theorem log3_theta_acos_clamped (M : Matrix3 R) :
  fst (log3 M) = acos ((log3_clamped_trace M - 1) / 2).
Proof.
  rewrite log3_fst, log3_theta_eq, log3_clamped_trace_eq.
  unfold Rmax, Rmin.
  destruct (Rle_dec 3 (trace M)) as [H3|H3].
  - destruct (Rle_dec (trace M) 3).
    + replace (trace M) with 3 by lra.
      destruct (Rle_dec 3 (-1)); [lra|].
      replace ((3 - 1) / 2) with 1 by lra. symmetry. apply acos_1.
    + destruct (Rle_dec 3 (-1)); [lra|].
      replace ((3 - 1) / 2) with 1 by lra. symmetry. apply acos_1.
  - destruct (Rle_dec (trace M) 3); [|lra].
    destruct (Rle_dec (trace M) (-1)) as [Hm|Hm].
    + replace ((-1 - 1) / 2) with (-1) by lra. symmetry. apply acos_m1.
    + reflexivity.
Qed.

(** X10.  A larger trace gives a smaller angle: [theta] is a non-increasing
    function of the trace, over all matrices. *)
Theorem log3_theta_monotone (M1 M2 : Matrix3 R) :
  trace M1 <= trace M2 -> fst (log3 M2) <= fst (log3 M1).
Proof.
  intros Htr. rewrite !log3_fst, !log3_theta_eq. pose proof PI_gt_3.
  destruct (Rle_dec 3 (trace M2)).
  - destruct (Rle_dec 3 (trace M1)); [lra|].
    destruct (Rle_dec (trace M1) (-1)); [lra|]. apply acos_bound.
  - destruct (Rle_dec 3 (trace M1)); [lra|].
    destruct (Rle_dec (trace M2) (-1)).
    + destruct (Rle_dec (trace M1) (-1)); lra.
    + destruct (Rle_dec (trace M1) (-1)).
      * apply acos_bound.
      * apply acos_decreasing; lra.
Qed.

Lemma rotation_cos_theta (M : Matrix3 R) :
  is_rotation M -> cos (log3_theta M) = (trace M - 1) / 2.
Proof.
  intros HM. pose proof (rotation_trace_bounds M HM) as [Hlo Hhi].
  rewrite log3_theta_eq.
  destruct (Rle_dec 3 (trace M)); [rewrite cos_0; lra|].
  destruct (Rle_dec (trace M) (-1)); [rewrite cos_PI; lra|].
  apply cos_acos. lra.
Qed.

(** X11.  On a rotation matrix the clamp of the trace changes nothing, and
    the angle returned is the angle of the rotation:
    [cos theta = (tr - 1) / 2]. *)
Theorem log3_theta_of_rotation (M : Matrix3 R) :
  is_rotation M ->
  log3_clamped_trace M = trace M /\ cos (fst (log3 M)) = (trace M - 1) / 2.
Proof.
  intros HM. split; [apply rotation_clamped_trace; exact HM|].
  rewrite log3_fst. apply rotation_cos_theta. exact HM.
Qed.

(** X12.  The transposed matrix has the same angle and, below the margin
    [pi - 1e-2], the opposite rotation vector. *)
Theorem log3_transpose (M : Matrix3 R) :
  fst (log3 (mtranspose M)) = fst (log3 M)
  /\ (fst (log3 M) < PI - 1e-2 ->
      snd (log3 (mtranspose M)) = vscale (-1) (snd (log3 M))).
Proof.
  assert (Hth : log3_theta (mtranspose M) = log3_theta M).
  { rewrite !log3_theta_eq. reflexivity. }
  split; [rewrite !log3_fst; exact Hth|].
  rewrite log3_fst. intros Hlt.
  rewrite !log3_snd_away by (rewrite ?Hth; exact Hlt). rewrite Hth.
  apply vector3_eq;
    unfold vscale, antisymmetric_vee, vee, madd, mopp, mtranspose;
    scalar_R; coefficients; ring.
Qed.
End Log3More.

Lemma log3_theta_monotone_witness :
  fst (log3 (taylor := precision3_double) Identity3)
  <= fst (log3 (taylor := precision3_double) Rx_pi).
Proof.
  apply (@log3_theta_monotone precision3_double Rx_pi Identity3).
  unfold trace, Rx_pi, Identity3. scalar_R. simpl. lra.
Defined.

Lemma log3_theta_of_rotation_witness :
  log3_clamped_trace Rx_pi = trace Rx_pi
  /\ cos (fst (log3 (taylor := precision3_double) Rx_pi)) = (trace Rx_pi - 1) / 2.
Proof.
  apply (@log3_theta_of_rotation precision3_double Rx_pi is_rotation_Rx_pi).
Defined.

Lemma log3_transpose_witness :
  snd (log3 (taylor := precision3_double) (mtranspose Rz_half_pi))
  = vscale (-1) (snd (log3 (taylor := precision3_double) Rz_half_pi)).
Proof.
  apply (proj2 (@log3_transpose precision3_double Rz_half_pi)).
  rewrite log3_fst, log3_Rz_half_pi_theta. pose proof PI_gt_3. lra.
Defined.

(** *** The norm of the rotation vector *)

(** On a rotation matrix each [1 + 2 M(i,i) - tr] is nonnegative. *)
Lemma rotation_diagonal_bounds (M : Matrix3 R) :
  is_rotation M ->
  0 <= 1 + 2 * m00 M - trace M /\
  0 <= 1 + 2 * m11 M - trace M /\
  0 <= 1 + 2 * m22 M - trace M.
Proof.
  intros HM. pose proof (rotation_trace_bounds M HM) as [Hlo Hhi].
  destruct M as [a b c d e f g h i].
  unfold is_rotation, trace, det3, mmul, mtranspose, Identity3 in *.
  revert HM Hlo Hhi. scalar_R. coefficients. intros [Ho Hd] Hlo Hhi.
  injection Ho as H00 H01 H02 H10 H11 H12 H20 H21 H22.
  assert (Ha : -1 <= a) by (clear - H00; nra).
  assert (He : -1 <= e) by (clear - H11; nra).
  assert (Hi : -1 <= i) by (clear - H22; nra).
  assert (I0 : (1 + (a + e + i)) * (1 + 2 * a - (a + e + i))
               = (h - f) * (h - f)) by nsatz.
  assert (I1 : (1 + (a + e + i)) * (1 + 2 * e - (a + e + i))
               = (c - g) * (c - g)) by nsatz.
  assert (I2 : (1 + (a + e + i)) * (1 + 2 * i - (a + e + i))
               = (d - b) * (d - b)) by nsatz.
  pose proof (Rle_0_sqr (h - f)) as S0.
  pose proof (Rle_0_sqr (c - g)) as S1.
  pose proof (Rle_0_sqr (d - b)) as S2. unfold Rsqr in *.
  destruct (Req_dec (a + e + i) (-1)) as [Heq|Hne].
  - repeat split; lra.
  - assert (0 < 1 + (a + e + i)) by lra.
    repeat split.
    + clear - H I0 S0. nra.
    + clear - H I1 S1. nra.
    + clear - H I2 S2. nra.
Qed.

Lemma strict_sign_sqr (a b : R) : strict_sign a b * strict_sign a b = 1.
Proof. unfold strict_sign. destruct (Rlt_dec b a); lra. Qed.

Section Log3Norm.
Context {T : TaylorSeriesExpansion R}.

Lemma log3_norm_near (M : Matrix3 R) :
  is_rotation M -> PI - 1e-2 <= log3_theta M ->
  dot (snd (log3 M)) (snd (log3 M)) = log3_theta M * log3_theta M.
Proof.
  intros HM Hge. rewrite (log3_snd_near M Hge).
  pose proof (rotation_trace_bounds M HM) as [Hlo Hhi].
  pose proof (rotation_diagonal_bounds M HM) as (D0 & D1 & D2).
  pose proof PI_gt_3.
  assert (Hlt : trace M < 3).
  { rewrite log3_theta_eq in Hge. destruct (Rle_dec 3 (trace M)); lra. }
  assert (Htmp : forall d, 0 <= 1 + 2 * d - trace M ->
            log3_tmp M d
            = (1 + 2 * d - trace M) / (3 - trace M)
              * (log3_theta M * log3_theta M)
            /\ 0 <= log3_tmp M d).
  { intros d Hd. unfold log3_tmp. rewrite (rotation_clamped_trace M HM).
    assert (Heq : (d + - (trace M - 1) / 2)
                  * (log3_theta M * log3_theta M / (1 + - (trace M - 1) / 2))
                  = (1 + 2 * d - trace M) / (3 - trace M)
                    * (log3_theta M * log3_theta M)) by (field; lra).
    split; [exact Heq|]. rewrite Heq.
    apply Rmult_le_pos; [|nra].
    apply Rmult_le_pos; [lra|]. left. apply Rinv_0_lt_compat. lra. }
  destruct (Htmp _ D0) as [E0 P0]. destruct (Htmp _ D1) as [E1 P1].
  destruct (Htmp _ D2) as [E2 P2].
  unfold dot. scalar_R. coefficients.
  rewrite !Rmax_right by assumption.
  assert (Hsq : forall s x, s * s = 1 -> 0 <= x ->
            s * sqrt x * (s * sqrt x) = x).
  { intros s x Hs Hx. replace (s * sqrt x * (s * sqrt x))
      with (s * s * (sqrt x * sqrt x)) by ring.
    rewrite Hs, sqrt_sqrt by exact Hx. ring. }
  rewrite !Hsq by (try apply strict_sign_sqr; assumption).
  rewrite E0, E1, E2. unfold trace. scalar_R. unfold trace in Hlt. revert Hlt.
  scalar_R. intros Hlt. field. lra.
Qed.

Lemma log3_vee_norm (M : Matrix3 R) :
  is_rotation M ->
  dot (antisymmetric_vee M) (antisymmetric_vee M)
  = 4 * (sin (log3_theta M) * sin (log3_theta M)).
Proof.
  intros HM. pose proof (rotation_antisymmetric_norm M HM) as Hn.
  pose proof (rotation_trace_bounds M HM) as [Hlo Hhi].
  pose proof (rotation_cos_theta M HM) as Hcos.
  pose proof (sin2_cos2 (log3_theta M)) as Hsc. unfold Rsqr in Hsc.
  unfold dot, antisymmetric_vee, vee, madd, mopp, mtranspose.
  scalar_R. coefficients.
  replace ((m21 M + - m12 M) * (m21 M + - m12 M)
           + (m02 M + - m20 M) * (m02 M + - m20 M)
           + (m10 M + - m01 M) * (m10 M + - m01 M))
    with ((1 + trace M) * (3 - trace M)) by (rewrite <- Hn; ring).
  rewrite Hcos in Hsc. nra.
Qed.

Lemma dot_vscale (a : R) (v : Vector3 R) :
  dot (vscale a v) (vscale a v) = a * a * dot v v.
Proof. unfold dot, vscale. scalar_R. coefficients. ring. Qed.

(** X13.  For a rotation matrix whose angle [theta] exceeds the precision
    threshold (itself not negative), the rotation vector that [log3] returns
    has norm [theta], on both sides of the margin [pi - 1e-2]:
    [r . r = theta^2]. *)
Theorem log3_norm (M : Matrix3 R) :
  is_rotation M ->
  0 <= precision3 < fst (log3 M) ->
  dot (snd (log3 M)) (snd (log3 M)) = fst (log3 M) * fst (log3 M).
Proof.
  intros HM [Hp Hth]. rewrite log3_fst in *.
  destruct (Rle_dec (PI - 1e-2) (log3_theta M)) as [Hge|Hlt].
  - apply log3_norm_near; assumption.
  - apply Rnot_le_lt in Hlt. rewrite (log3_snd_away M Hlt).
    destruct (Rlt_dec precision3 (log3_theta M)); [|lra].
    rewrite dot_vscale, (log3_vee_norm M HM).
    assert (0 < sin (log3_theta M)) by (apply sin_gt_0; lra).
    field. lra.
Qed.

(** X14.  For a rotation matrix whose angle [theta] is at or below the
    precision threshold, the rotation vector has norm [sin theta], not
    [theta]: the Taylor value [1/2] of the factor leaves the error
    [theta - sin theta]. *)
Theorem log3_norm_small_angle (M : Matrix3 R) :
  is_rotation M ->
  fst (log3 M) <= precision3 -> fst (log3 M) < PI - 1e-2 ->
  dot (snd (log3 M)) (snd (log3 M))
  = sin (fst (log3 M)) * sin (fst (log3 M)).
Proof.
  intros HM Hp Hlt. rewrite log3_fst in *.
  rewrite (log3_snd_away M Hlt).
  destruct (Rlt_dec precision3 (log3_theta M)); [lra|].
  rewrite dot_vscale, (log3_vee_norm M HM). field.
Qed.
End Log3Norm.

Lemma log3_norm_witness :
  dot (snd (log3 (taylor := precision3_double) Rx_pi))
      (snd (log3 (taylor := precision3_double) Rx_pi))
  = fst (log3 (taylor := precision3_double) Rx_pi)
    * fst (log3 (taylor := precision3_double) Rx_pi).
Proof.
  apply (@log3_norm precision3_double Rx_pi is_rotation_Rx_pi).
  rewrite log3_Rx_pi. cbn [fst precision3 precision3_double precision_R].
  pose proof PI_gt_3. lra.
Defined.

Lemma is_rotation_AngleAxis_UnitX (a : R) : is_rotation (AngleAxis_UnitX a).
Proof.
  pose proof (sin2_cos2 a) as H. unfold Rsqr in H.
  unfold is_rotation, AngleAxis_UnitX, Identity3, mmul, mtranspose, det3.
  scalar_R. coefficients. split; [apply matrix3_eq; coefficients|]; lra.
Qed.

Lemma log3_theta_AngleAxis_UnitX (a : R) :
  0 <= a <= PI -> log3_theta (AngleAxis_UnitX a) = a.
Proof.
  intros Ha. rewrite log3_theta_eq.
  assert (Htr : trace (AngleAxis_UnitX a) = 1 + 2 * cos a)
    by (unfold trace, AngleAxis_UnitX; scalar_R; coefficients; ring).
  rewrite Htr. pose proof PI_gt_3.
  destruct (Rle_dec 3 (1 + 2 * cos a)) as [H3|H3].
  - destruct (Req_dec a 0) as [->|Hne]; [reflexivity|].
    pose proof (cos_lt_1 a). lra.
  - destruct (Rle_dec (1 + 2 * cos a) (-1)) as [Hm|Hm].
    + destruct (Req_dec a PI) as [->|Hne]; [reflexivity|].
      pose proof (cos_decreasing_1 a PI) as Hdec. rewrite cos_PI in Hdec. lra.
    + replace ((1 + 2 * cos a - 1) / 2) with (cos a) by lra.
      apply acos_cos. exact Ha.
Qed.

Lemma log3_norm_small_angle_witness :
  fst (log3 (taylor := precision3_double) (AngleAxis_UnitX (/ 16384)))
  = / 16384
  /\ dot (snd (log3 (taylor := precision3_double) (AngleAxis_UnitX (/ 16384))))
         (snd (log3 (taylor := precision3_double) (AngleAxis_UnitX (/ 16384))))
     = sin (fst (log3 (taylor := precision3_double)
                   (AngleAxis_UnitX (/ 16384))))
       * sin (fst (log3 (taylor := precision3_double)
                     (AngleAxis_UnitX (/ 16384))))
  /\ 0 < sin (/ 16384) < / 16384.
Proof.
  pose proof PI_gt_3.
  assert (Hth : fst (log3 (taylor := precision3_double)
                       (AngleAxis_UnitX (/ 16384))) = / 16384)
    by (rewrite log3_fst; apply log3_theta_AngleAxis_UnitX; lra).
  split; [exact Hth|]. split.
  - apply (@log3_norm_small_angle precision3_double
             (AngleAxis_UnitX (/ 16384)) (is_rotation_AngleAxis_UnitX _));
      rewrite Hth; cbn [precision3 precision3_double precision_R]; lra.
  - split; [apply sin_gt_0; lra | apply sin_lt_x; lra].
Defined.

(** *** Degenerate transforms and the Jacobians *)

Ltac geometry :=
  cbv [madd mopp mtranspose mscale outer mdiag skew mmul mzero mvmul
       vadd vsub vscale cross dot add_to_diagonal addSkew
       Vector3_Zero Identity3 UnitX UnitY UnitZ
       m00 m01 m02 m10 m11 m12 m20 m21 m22 v0 v1 v2
       ofZ ofQ s_add s_sub s_mul s_div s_opp R_Scalar].

Section LogMore.
Context {T : TaylorSeriesExpansion R}.

(** X16.  With a positive precision threshold, the logarithm of a pure
    translation is the translation itself: [log6 (I, p) = (p, 0)]. *)
Theorem log6_pure_translation (p : Vector3 R) :
  0 < precision3 ->
  log6 (mkSE3 Identity3 p) = mkMotion p Vector3_Zero.
Proof.
  intros Hp. unfold log6, log6_impl_run. cbn [rotation translation].
  rewrite log3_Identity3. f_equal.
  unfold log6_alpha, log6_beta, if_then_else. scalar_R.
  destruct (Rltb_spec 0 precision3); [|lra].
  apply vector3_eq;
    unfold vadd, vsub, vscale, cross, dot, Vector3_Zero;
    scalar_R; coefficients; rewrite ?Q2R_half; lra.
Qed.

Lemma mmul_mzero_l (A : Matrix3 R) : mmul mzero A = mzero.
Proof.
  apply matrix3_eq; unfold mmul, mzero; scalar_R; coefficients; ring.
Qed.

(** X19.  The Jacobian of the logarithm of a pure rotation is block
    diagonal: when the translation of [M] is zero, both off-diagonal blocks
    of [Jlog6 M] are zero and both diagonal blocks are [Jlog3 (theta, w)]. *)
Theorem Jlog6_pure_rotation (Rot : Matrix3 R) (value : Matrix6 R) :
  Jlog6_impl_run (mkSE3 Rot Vector3_Zero) value
  = mkMatrix6 (Jlog3 (fst (log3 Rot)) (snd (log3 Rot))) mzero
              mzero (Jlog3 (fst (log3 Rot)) (snd (log3 Rot))).
Proof.
  unfold Jlog6_impl_run. cbn [rotation translation].
  destruct (log3 Rot) as [t w]. cbn [fst snd].
  cbv [set_A set_B set_C set_D topLeftCorner topRightCorner
       bottomLeftCorner bottomRightCorner].
  f_equal.
  generalize (Jlog3 t w). generalize (Jlog6_beta t).
  generalize (Jlog6_beta_dot_over_theta t).
  intros bdot beta A. destruct w as [w0 w1 w2].
  apply matrix3_eq; geometry; ring.
Qed.

(** X20.  With a positive precision threshold, the Jacobian of the
    logarithm of a pure translation [(I, p)] has the identity in both
    diagonal blocks, the skew matrix of [p / 2] in the top-right block and
    zero in the bottom-left block. *)
Theorem Jlog6_of_translation (p : Vector3 R) (value : Matrix6 R) :
  0 < precision3 ->
  Jlog6_impl_run (mkSE3 Identity3 p) value
  = mkMatrix6 Identity3 (mscale 0.5 (skew p)) mzero Identity3.
Proof.
  intros Hp. unfold Jlog6_impl_run. cbn [rotation translation].
  rewrite log3_Identity3.
  cbn [set_A set_B set_C set_D topLeftCorner topRightCorner
       bottomLeftCorner bottomRightCorner].
  unfold Jlog3, Jlog3_impl_run, Jlog6_beta, Jlog6_beta_dot_over_theta,
    if_then_else.
  scalar_R. destruct (Rltb_spec 0 precision3); [|lra].
  rewrite Q2R_half. destruct p as [p0 p1 p2].
  cbv [set_A set_B set_C set_D topLeftCorner topRightCorner
       bottomLeftCorner bottomRightCorner].
  f_equal; apply matrix3_eq; geometry; lra.
Qed.
End LogMore.

Lemma log6_pure_translation_witness :
  log6 (taylor := precision3_double) (mkSE3 Identity3 UnitX)
  = mkMotion UnitX Vector3_Zero.
Proof.
  apply (@log6_pure_translation precision3_double UnitX).
  cbn [precision3 precision3_double precision_R]. lra.
Defined.

Lemma Jlog6_of_translation_witness :
  Jlog6_impl_run (taylor := precision3_double) (mkSE3 Identity3 UnitX)
    (mkMatrix6 Identity3 Identity3 Identity3 Identity3)
  = mkMatrix6 Identity3 (mscale 0.5 (skew UnitX)) mzero Identity3.
Proof.
  apply (@Jlog6_of_translation precision3_double UnitX).
  cbn [precision3 precision3_double precision_R]. lra.
Defined.

(** *** No NaN on finite inputs *)

Ltac geometry_X :=
  cbv [madd mmul mzero outer vadd vsub vscale cross dot add_to_diagonal
       addSkew XVec XMat XSE3 XMotion XMat6
       set_A set_B set_C set_D topLeftCorner topRightCorner
       bottomLeftCorner bottomRightCorner rotation translation
       linear angular
       m00 m01 m02 m10 m11 m12 m20 m21 m22 v0 v1 v2
       ofZ ofQ s_add s_sub s_mul s_div s_opp
       xreal_Scalar R_Scalar xlift1 xlift2].

(** X21.  With a threshold that is not negative, [log3] of a matrix of
    finite coefficients has no NaN, neither in the angle nor in the rotation
    vector, and its values are those of the computation over the real
    numbers; this holds on both sides of the margin and at [theta = 0], where
    [beta = theta^2 / (1 + cphi)] is undefined but not selected. *)
Theorem log3_finite (p : R) (M : Matrix3 R) :
  0 <= p ->
  log3 (taylor := precision_X p) (XMat M)
  = (XFin (fst (log3 (taylor := precision_R p) M)),
     XVec (snd (log3 (taylor := precision_R p) M)))
  /\ is_nan (fst (log3 (taylor := precision_X p) (XMat M))) = false
  /\ vec_has_nan (snd (log3 (taylor := precision_X p) (XMat M))) = false.
Proof.
  intros Hp. rewrite (log3_XMat p M Hp). repeat split; reflexivity.
Qed.

Lemma log3_finite_witness :
  vec_has_nan (snd (log3 (taylor := precision_X (/ 8192)) (XMat Identity3)))
  = false.
Proof.
  apply (proj2 (proj2 (log3_finite (/ 8192) Identity3 ltac:(lra)))).
Defined.

Section FiniteCoefficients.
Variable p : R.
Hypothesis p_pos : 0 < p.

Lemma log6_alpha_X (t : R) :
  0 <= t <= PI ->
  log6_alpha (taylor := precision_X p) (XFin t)
  = XFin (log6_alpha (taylor := precision_R p) t).
Proof using p_pos.
  intros Ht. unfold log6_alpha, if_then_else.
  cbn [precision3 precision_R precision_X]. scalar_X. scalar_R.
  destruct (Rltb_spec t p).
  - rewrite !(xdiv_fin _ 12), !(xdiv_fin _ 720) by lra. reflexivity.
  - pose proof (cos_lt_1 t). rewrite xdiv_fin by lra. reflexivity.
Qed.

Lemma log6_beta_X (t : R) :
  0 <= t <= PI ->
  log6_beta (taylor := precision_X p) (XFin t)
  = XFin (log6_beta (taylor := precision_R p) t).
Proof using p_pos.
  intros Ht. unfold log6_beta, if_then_else.
  cbn [precision3 precision_R precision_X]. scalar_X. scalar_R.
  destruct (Rltb_spec t p).
  - rewrite !(xdiv_fin _ 12), !(xdiv_fin _ 720) by lra. reflexivity.
  - pose proof (cos_lt_1 t).
    rewrite (xdiv_fin _ (t * t)) by nra.
    rewrite (xdiv_fin _ (2 * t * (1 - cos t))) by nra. reflexivity.
Qed.

Lemma Jlog3_X (t : R) (r : Vector3 R) :
  0 <= t <= PI ->
  Jlog3 (taylor := precision_X p) (XFin t) (XVec r)
  = XMat (Jlog3 (taylor := precision_R p) t r).
Proof using p_pos.
  intros Ht. unfold Jlog3, Jlog3_impl_run, if_then_else.
  cbn [precision3 precision_R precision_X]. scalar_X. scalar_R.
  destruct r as [r0 r1 r2].
  destruct (Rltb_spec t p).
  - rewrite !(xdiv_fin _ 12), !(xdiv_fin _ 720), !(xdiv_fin _ 6) by lra.
    geometry_X. reflexivity.
  - pose proof (cos_lt_1 t).
    rewrite (xdiv_fin _ (1 - cos t)) by lra. scalar_X.
    rewrite (xdiv_fin _ (t * t)) by nra.
    rewrite (xdiv_fin _ (2 * t)) by lra.
    geometry_X. reflexivity.
Qed.

Lemma Jlog6_beta_X (t : R) :
  0 <= t <= PI ->
  Jlog6_beta (taylor := precision_X p) (XFin t)
  = XFin (Jlog6_beta (taylor := precision_R p) t).
Proof using p_pos.
  intros Ht. unfold Jlog6_beta, if_then_else.
  cbn [precision3 precision_R precision_X]. scalar_X. scalar_R.
  destruct (Rltb_spec t p).
  - rewrite !(xdiv_fin _ 12), !(xdiv_fin _ 720) by lra. reflexivity.
  - pose proof (cos_lt_1 t).
    rewrite !(xdiv_fin _ t) by lra. scalar_X.
    rewrite xdiv_fin by lra. reflexivity.
Qed.

Lemma Jlog6_beta_dot_over_theta_X (t : R) :
  0 <= t <= PI ->
  Jlog6_beta_dot_over_theta (taylor := precision_X p) (XFin t)
  = XFin (Jlog6_beta_dot_over_theta (taylor := precision_R p) t).
Proof using p_pos.
  intros Ht. unfold Jlog6_beta_dot_over_theta, if_then_else.
  cbn [precision3 precision_R precision_X]. scalar_X. scalar_R.
  destruct (Rltb_spec t p).
  - rewrite !(xdiv_fin _ 360) by lra. reflexivity.
  - pose proof (cos_lt_1 t).
    rewrite !(xdiv_fin _ t) by lra. scalar_X.
    rewrite !xdiv_fin by lra. reflexivity.
Qed.
End FiniteCoefficients.

Lemma log6_XSE3 (p : R) (M : SE3 R) :
  0 < p ->
  log6 (taylor := precision_X p) (XSE3 M)
  = XMotion (log6 (taylor := precision_R p) M).
Proof.
  intros Hp. unfold log6, log6_impl_run.
  change (rotation (XSE3 M)) with (XMat (rotation M)).
  change (translation (XSE3 M)) with (XVec (translation M)).
  rewrite (log3_XMat p (rotation M)) by lra.
  rewrite (surjective_pairing (log3 (taylor := precision_R p) (rotation M))).
  pose proof (@log3_theta_bound (rotation M)) as Hb.
  rewrite (@log3_fst (precision_R p)). cbv beta iota zeta. cbn [fst snd].
  rewrite (log6_alpha_X p Hp _ Hb), (log6_beta_X p Hp _ Hb).
  generalize (log6_alpha (taylor := precision_R p) (log3_theta (rotation M))).
  generalize (log6_beta (taylor := precision_R p) (log3_theta (rotation M))).
  generalize (snd (log3 (taylor := precision_R p) (rotation M))).
  intros [w0 w1 w2] beta alpha. destruct (translation M) as [p0 p1 p2].
  geometry_X. reflexivity.
Qed.

(** X22.  With a positive threshold, [log6] of a transform of finite
    coefficients has no NaN: every division of the selected branch has a
    denominator that is not zero, since [theta] lies in [[0, pi]] and the
    closed forms are only selected for [theta >= p > 0]. *)
Theorem log6_finite (p : R) (M : SE3 R) :
  0 < p ->
  log6 (taylor := precision_X p) (XSE3 M)
  = XMotion (log6 (taylor := precision_R p) M).
Proof.
  intros Hp. unfold log6, log6_impl_run.
  change (rotation (XSE3 M)) with (XMat (rotation M)).
  change (translation (XSE3 M)) with (XVec (translation M)).
  rewrite (log3_XMat p (rotation M)) by lra.
  rewrite (surjective_pairing (log3 (taylor := precision_R p) (rotation M))).
  pose proof (@log3_theta_bound (rotation M)) as Hb.
  rewrite (@log3_fst (precision_R p)). cbv beta iota zeta. cbn [fst snd].
  rewrite (log6_alpha_X p Hp _ Hb), (log6_beta_X p Hp _ Hb).
  generalize (log6_alpha (taylor := precision_R p) (log3_theta (rotation M))).
  generalize (log6_beta (taylor := precision_R p) (log3_theta (rotation M))).
  generalize (snd (log3 (taylor := precision_R p) (rotation M))).
  intros [w0 w1 w2] beta alpha. destruct (translation M) as [p0 p1 p2].
  geometry_X. reflexivity.
Qed.

Lemma log6_finite_witness :
  log6 (taylor := precision_X (/ 8192)) (XSE3 (mkSE3 Rx_pi UnitX))
  = XMotion (log6 (taylor := precision_R (/ 8192)) (mkSE3 Rx_pi UnitX)).
Proof.
  apply (log6_finite (/ 8192) (mkSE3 Rx_pi UnitX)). lra.
Defined.

(** X23.  With a positive threshold, [Jlog3 (theta, r)] has no NaN for
    every [theta] in [[0, pi]] and every finite [r], in the closed-form
    branch as in the Taylor branch. *)
Theorem Jlog3_finite (p theta : R) (r : Vector3 R) :
  0 < p -> 0 <= theta <= PI ->
  Jlog3 (taylor := precision_X p) (XFin theta) (XVec r)
  = XMat (Jlog3 (taylor := precision_R p) theta r).
Proof.
  intros Hp Ht. apply Jlog3_X; assumption.
Qed.

Lemma Jlog3_finite_witness :
  Jlog3 (taylor := precision_X (/ 8192)) (XFin PI) (XVec (vscale PI UnitX))
  = XMat (Jlog3 (taylor := precision_R (/ 8192)) PI (vscale PI UnitX)).
Proof.
  pose proof PI_gt_3.
  apply (Jlog3_finite (/ 8192) PI (vscale PI UnitX)); lra.
Defined.

(** X24.  With a positive threshold, [Jlog6] of a transform of finite
    coefficients leaves a matrix without NaN, whatever the matrix supplied
    by the caller held, NaN included: every block is overwritten, and [1/t],
    undefined at [t = 0], only enters the branch that is then not
    selected. *)
Theorem Jlog6_finite (p : R) (M : SE3 R) (value : Matrix6 xreal)
    (value' : Matrix6 R) :
  0 < p ->
  Jlog6_impl_run (taylor := precision_X p) (XSE3 M) value
  = XMat6 (Jlog6_impl_run (taylor := precision_R p) M value').
Proof.
  intros Hp. unfold Jlog6_impl_run.
  change (rotation (XSE3 M)) with (XMat (rotation M)).
  change (translation (XSE3 M)) with (XVec (translation M)).
  rewrite (log3_XMat p (rotation M)) by lra.
  rewrite (surjective_pairing (log3 (taylor := precision_R p) (rotation M))).
  pose proof (@log3_theta_bound (rotation M)) as Hb.
  rewrite (@log3_fst (precision_R p)). cbv beta iota zeta. cbn [fst snd].
  rewrite (Jlog3_X p Hp _ _ Hb).
  rewrite (Jlog6_beta_X p Hp _ Hb), (Jlog6_beta_dot_over_theta_X p Hp _ Hb).
  generalize (Jlog6_beta (taylor := precision_R p) (log3_theta (rotation M))).
  generalize (Jlog6_beta_dot_over_theta (taylor := precision_R p)
                (log3_theta (rotation M))).
  generalize (Jlog3 (taylor := precision_R p) (log3_theta (rotation M))
                (snd (log3 (taylor := precision_R p) (rotation M)))).
  generalize (snd (log3 (taylor := precision_R p) (rotation M))).
  generalize (log3_theta (rotation M)).
  intros t [w0 w1 w2] [a00 a01 a02 a10 a11 a12 a20 a21 a22] bdot beta.
  destruct (translation M) as [p0 p1 p2].
  geometry_X. reflexivity.
Qed.

Lemma Jlog6_finite_witness :
  Jlog6_impl_run (taylor := precision_X (/ 8192)) (XSE3 (mkSE3 Identity3 UnitX))
    (mkMatrix6 (XMat Identity3) (XMat Identity3)
               (mkMatrix3 XNaN XNaN XNaN XNaN XNaN XNaN XNaN XNaN XNaN)
               (XMat Identity3))
  = XMat6 (Jlog6_impl_run (taylor := precision_R (/ 8192))
             (mkSE3 Identity3 UnitX)
             (mkMatrix6 Identity3 Identity3 Identity3 Identity3)).
Proof.
  apply (Jlog6_finite (/ 8192) (mkSE3 Identity3 UnitX)). lra.
Defined.

(** *** Degenerate transforms and the Jacobian of [log3], without NaN *)

(** X15.  With a positive threshold, the logarithm of a pure rotation is a
    pure rotation: when the translation of [M] is zero, the linear part of
    [log6 M] is exactly zero and its angular part is [log3] of the rotation.
    This is the value computed in the arithmetic with NaN, where no division
    of the selected branch has a zero divisor, and in real arithmetic. *)
Theorem log6_pure_rotation (p : R) (Rot : Matrix3 R) :
  0 < p ->
  log6 (taylor := precision_X p) (XSE3 (mkSE3 Rot Vector3_Zero))
  = XMotion (mkMotion Vector3_Zero (snd (log3 (taylor := precision_R p) Rot)))
  /\ log6 (taylor := precision_R p) (mkSE3 Rot Vector3_Zero)
     = mkMotion Vector3_Zero (snd (log3 (taylor := precision_R p) Rot)).
Proof.
  intros Hp.
  assert (HR : log6 (taylor := precision_R p) (mkSE3 Rot Vector3_Zero)
               = mkMotion Vector3_Zero
                   (snd (log3 (taylor := precision_R p) Rot))).
  { unfold log6, log6_impl_run. cbn [rotation translation].
    destruct (log3 (taylor := precision_R p) Rot) as [theta w].
    cbn [snd]. f_equal.
    apply vector3_eq;
      unfold vadd, vsub, vscale, cross, dot, Vector3_Zero;
      scalar_R; coefficients; ring. }
  split; [|exact HR]. rewrite <- HR. apply log6_XSE3. exact Hp.
Qed.

Lemma log6_pure_rotation_witness :
  log6 (taylor := precision_X (/ 8192)) (XSE3 (mkSE3 Rx_pi Vector3_Zero))
  = XMotion (mkMotion Vector3_Zero (mkVector3 (- PI) 0 0)).
Proof.
  replace (mkVector3 (- PI) 0 0)
    with (snd (log3 (taylor := precision_R (/ 8192)) Rx_pi))
    by (rewrite log3_Rx_pi; reflexivity).
  apply (proj1 (log6_pure_rotation (/ 8192) Rx_pi ltac:(lra))).
Defined.

Lemma Jlog3_skew_part {T : TaylorSeriesExpansion R} (theta : R)
    (r : Vector3 R) :
  madd (Jlog3 theta r) (mopp (mtranspose (Jlog3 theta r))) = skew r.
Proof.
  rewrite Jlog3_closed_form. cbv zeta.
  generalize (if Rlt_dec theta precision3
              then 1 / 12 + theta * theta / 720
              else 1 / (theta * theta)
                   - sin theta / (1 - cos theta) / (2 * theta)).
  generalize (if Rlt_dec theta precision3
              then 0.5 * (2 - theta * theta / 6)
              else 0.5 * (theta * (sin theta / (1 - cos theta)))).
  intros beta alpha.
  apply matrix3_eq; geometry; lra.
Qed.

(** X17.  With a positive threshold and [theta] in [[0, pi]], the range of
    the angle that [log3] returns, [Jlog3 (theta, r)] is a matrix without
    NaN whose antisymmetric part is the skew matrix of [r / 2]:
    [J - J^T = skew (r)].  In this range no division of the selected branch
    has a zero divisor. *)
Theorem Jlog3_antisymmetric_part (p theta : R) (r : Vector3 R) :
  0 < p -> 0 <= theta <= PI ->
  Jlog3 (taylor := precision_X p) (XFin theta) (XVec r)
  = XMat (Jlog3 (taylor := precision_R p) theta r)
  /\ madd (Jlog3 (taylor := precision_R p) theta r)
          (mopp (mtranspose (Jlog3 (taylor := precision_R p) theta r)))
     = skew r.
Proof.
  intros Hp Ht. split; [apply Jlog3_X; assumption|apply Jlog3_skew_part].
Qed.

Lemma Jlog3_antisymmetric_part_witness :
  Jlog3 (taylor := precision_X (/ 8192)) (XFin PI) (XVec (vscale PI UnitX))
  = XMat (Jlog3 (taylor := precision_R (/ 8192)) PI (vscale PI UnitX))
  /\ madd (Jlog3 (taylor := precision_R (/ 8192)) PI (vscale PI UnitX))
          (mopp (mtranspose (Jlog3 (taylor := precision_R (/ 8192)) PI
                               (vscale PI UnitX))))
     = skew (vscale PI UnitX).
Proof.
  pose proof PI_gt_3.
  apply (Jlog3_antisymmetric_part (/ 8192) PI (vscale PI UnitX)); lra.
Defined.

(** X18.  With a positive threshold, [theta] in [[0, pi]] and [r] of norm
    [theta], [Jlog3 (theta, r)] is a matrix without NaN that acts on [r]
    itself as the identity in the closed-form branch ([theta] at or above
    the threshold), and as the scaling by [1 + theta^4 / 720] in the Taylor
    branch ([theta] below the threshold). *)
Theorem Jlog3_on_rotation_vector (p theta : R) (r : Vector3 R) :
  0 < p -> 0 <= theta <= PI -> dot r r = theta * theta ->
  Jlog3 (taylor := precision_X p) (XFin theta) (XVec r)
  = XMat (Jlog3 (taylor := precision_R p) theta r)
  /\ (p <= theta -> mvmul (Jlog3 (taylor := precision_R p) theta r) r = r)
  /\ (theta < p ->
      mvmul (Jlog3 (taylor := precision_R p) theta r) r
      = vscale (1 + theta * theta * (theta * theta) / 720) r).
Proof.
  intros Hp Ht Hn. split; [apply Jlog3_X; assumption|].
  rewrite Jlog3_closed_form. cbv zeta.
  cbn [precision3 precision_R].
  pose proof (cos_lt_1 theta) as Hcos.
  assert (Hact : forall alpha beta,
            mvmul (madd (madd (mscale alpha (outer r r)) (mdiag beta))
                        (mscale 0.5 (skew r))) r
            = vscale (alpha * (theta * theta) + beta) r).
  { intros alpha beta. rewrite <- Hn.
    apply vector3_eq; geometry; ring. }
  rewrite Hact. split.
  - intros Hge. destruct (Rlt_dec theta p); [lra|].
    assert (Hk : (1 / (theta * theta)
                  - sin theta / (1 - cos theta) / (2 * theta))
                 * (theta * theta)
                 + / 2 * (theta * (sin theta / (1 - cos theta))) = 1)
      by (field; lra).
    replace 0.5 with (/ 2) by lra. rewrite Hk.
    apply vector3_eq; geometry; ring.
  - intros Hlt. destruct (Rlt_dec theta p); [|lra].
    f_equal. lra.
Qed.

Lemma Jlog3_on_rotation_vector_witness :
  mvmul (Jlog3 (taylor := precision_R (/ 8192)) PI (vscale PI UnitX))
        (vscale PI UnitX)
  = vscale PI UnitX.
Proof.
  pose proof PI_gt_3.
  apply (proj1 (proj2 (Jlog3_on_rotation_vector (/ 8192) PI (vscale PI UnitX)
                  ltac:(lra) ltac:(lra)
                  ltac:(unfold dot, vscale, UnitX; scalar_R; coefficients;
                        ring)))).
  lra.
Defined.

(** ** The helical joint, for every pitch and configuration *)



(** *** The translation along the axis *)

(** X26.  For a transform whose rotation is a rotation matrix of angle
    [theta] above the threshold, [log6] keeps the component of the
    translation along the rotation vector: [w . v = w . p], where [v] is the
    linear part of [log6 M] and [w] its angular part. *)
Theorem log6_axial_translation {T : TaylorSeriesExpansion R} (M : SE3 R) :
  is_rotation (rotation M) ->
  0 <= precision3 < fst (log3 (rotation M)) ->
  dot (angular (log6 M)) (linear (log6 M))
  = dot (angular (log6 M)) (translation M).
Proof.
  intros HM [Hp Hth]. rewrite log3_fst in Hth.
  assert (Hn : dot (snd (log3 (rotation M))) (snd (log3 (rotation M)))
               = log3_theta (rotation M) * log3_theta (rotation M)).
  { destruct (Rle_dec (PI - 1e-2) (log3_theta (rotation M))) as [Hge|Hlt].
    - apply log3_norm_near; assumption.
    - apply Rnot_le_lt in Hlt. rewrite (log3_snd_away _ Hlt).
      destruct (Rlt_dec precision3 (log3_theta (rotation M))); [|lra].
      rewrite dot_vscale, (log3_vee_norm _ HM).
      assert (0 < sin (log3_theta (rotation M))) by (apply sin_gt_0; lra).
      field. lra. }
  pose proof (log3_theta_bound (rotation M)) as [_ Hpi].
  pose proof (cos_lt_1 (log3_theta (rotation M))) as Hc.
  unfold log6, log6_impl_run.
  rewrite (surjective_pairing (log3 (rotation M))), log3_fst.
  cbn [angular linear].
  unfold log6_alpha, log6_beta, if_then_else. scalar_R.
  destruct (Rltb_spec (log3_theta (rotation M)) precision3); [lra|].
  revert Hn Hth Hpi Hc.
  generalize (log3_theta (rotation M)). generalize (snd (log3 (rotation M))).
  intros [w0 w1 w2] t Hn Hth Hpi Hc. destruct (translation M) as [p0 p1 p2].
  revert Hn. rewrite Q2R_half. geometry. intros Hn.
  generalize (sin t). intros s.
  assert (Hk : t * s / (2 * (1 - cos t))
               + (1 / (t * t) - s / (2 * t * (1 - cos t))) * (t * t) = 1)
    by (field; lra).
  set (alpha := t * s / (2 * (1 - cos t))) in *.
  set (beta := 1 / (t * t) - s / (2 * t * (1 - cos t))) in *.
  clearbody alpha beta.
  replace (w0 * (alpha * p0 - / 2 * (w1 * p2 - w2 * p1)
                 + beta * (w0 * p0 + w1 * p1 + w2 * p2) * w0)
           + w1 * (alpha * p1 - / 2 * (w2 * p0 - w0 * p2)
                   + beta * (w0 * p0 + w1 * p1 + w2 * p2) * w1)
           + w2 * (alpha * p2 - / 2 * (w0 * p1 - w1 * p0)
                   + beta * (w0 * p0 + w1 * p1 + w2 * p2) * w2))
    with ((alpha + beta * (w0 * w0 + w1 * w1 + w2 * w2))
          * (w0 * p0 + w1 * p1 + w2 * p2)) by ring.
  rewrite Hn, Hk. ring.
Qed.

Lemma log6_axial_translation_witness :
  dot (angular (log6 (taylor := precision3_double) (mkSE3 Rx_pi UnitX)))
      (linear (log6 (taylor := precision3_double) (mkSE3 Rx_pi UnitX)))
  = dot (angular (log6 (taylor := precision3_double) (mkSE3 Rx_pi UnitX)))
        (translation (mkSE3 Rx_pi UnitX)).
Proof.
  apply (@log6_axial_translation precision3_double (mkSE3 Rx_pi UnitX)).
  - exact is_rotation_Rx_pi.
  - cbn [rotation]. rewrite log3_Rx_pi.
    cbn [fst precision3 precision3_double precision_R].
    pose proof PI_gt_3. lra.
Defined.
